(** * olo-id: identifier syntaxes, identifiers and identifier sets

    A shallow embedding of the identifier engine of the olo-id package:
    the classes [OloIdSyntax] (the process-wide syntax registry),
    [OloId] (one identifier bound to one syntax) and [OloIdSet] (several
    identifiers derived from one value), followed by the properties of the
    specification that were checked against them.

    The static fields of [OloIdSyntax] are the only mutable state; they are
    threaded explicitly as a [Registry] value through every constructor and
    method that can touch them.

    The value maps are plain JavaScript objects.  They are modelled with
    the three things the code depends on: a read of a key goes up to
    [Object.prototype] when the object does not own the key, an
    assignment to [__proto__] reaches a setter and stores nothing, and
    the keys are listed with the array indices first. *)

From Stdlib Require Import String Ascii List Bool ZArith NArith Lia Arith DecimalString
  Permutation Sorted.
Import ListNotations.
Open Scope string_scope.

(** ** The JavaScript values and built-ins the code relies on *)

Module Js.

(** Values an [OloUri] can hold: [string | number], and [undefined] for a
    key that is declared without a value.  Strings are sequences of code
    units; numbers are the integers, printed in decimal as JavaScript
    prints an integer below 10^21.

    [VBuiltin name] is what reading [name] from a plain object yields when
    the object has no key [name] of its own and [Object.prototype] has a
    member of that name: a built-in function, or, for [__proto__],
    [Object.prototype] itself.  Two of them are [===] exactly when they
    are the same member. *)
Inductive Value : Type :=
| VUndef
| VStr (s : string)
| VNum (n : Z)
| VBuiltin (name : string).

Definition value_eqb (a b : Value) : bool :=
  match a, b with
  | VUndef, VUndef => true
  | VStr x, VStr y => String.eqb x y
  | VNum x, VNum y => Z.eqb x y
  | VBuiltin x, VBuiltin y => String.eqb x y
  | _, _ => false
  end.

(** [!!v] *)
Definition truthy (v : Value) : bool :=
  match v with
  | VUndef => false
  | VStr s => negb (String.eqb s "")
  | VNum n => negb (Z.eqb n 0)
  | VBuiltin _ => true
  end.

(** [a || b] *)
Definition or_else (a b : Value) : Value := if truthy a then a else b.

(** The string a value contributes to [Array.prototype.join]:
    [undefined] contributes the empty string, [Object.prototype] its
    tag, and a built-in function its source text as V8 gives it. *)
Definition to_string (v : Value) : string :=
  match v with
  | VUndef => ""
  | VStr s => s
  | VNum n => NilZero.string_of_int (Z.to_int n)
  | VBuiltin name =>
      if String.eqb name "__proto__" then "[object Object]"
      else "function " ++ (if String.eqb name "constructor" then "Object" else name)
                       ++ "() { [native code] }"
  end.

(** The own enumerable string keys of an object created by [{}] or an
    object literal, with their values, in the order in which
    [Object.keys] and [Object.values] list them. *)
Definition Obj (A : Type) : Type := list (string * A).

Definition obj_keys {A} (o : Obj A) : list string := map fst o.
Definition obj_values {A} (o : Obj A) : list A := map snd o.

(** The value of an own key. *)
Fixpoint obj_get {A} (k : string) (o : Obj A) : option A :=
  match o with
  | [] => None
  | (k', v) :: o' => if String.eqb k k' then Some v else obj_get k o'
  end.

(** The names of the members of [Object.prototype]. *)
Definition Object_prototype : list string :=
  ["constructor"; "__defineGetter__"; "__defineSetter__"; "hasOwnProperty";
   "__lookupGetter__"; "__lookupSetter__"; "isPrototypeOf"; "propertyIsEnumerable";
   "toString"; "valueOf"; "__proto__"; "toLocaleString"].

(** What a key that an object does not own reads as: the member of
    [Object.prototype] of that name, or [undefined]. *)
Definition inherited (k : string) : Value :=
  if existsb (String.eqb k) Object_prototype then VBuiltin k else VUndef.

(** [o[k]] on an object of values: an own key, or else up the prototype
    chain. *)
Definition get (o : Obj Value) (k : string) : Value :=
  match obj_get k o with
  | Some v => v
  | None => inherited k
  end.

(** The array indices: the strings that are the canonical decimal form of
    an integer from 0 to 2^32 - 2.  An object lists its keys that are
    array indices first, in ascending order, and the others after them in
    the order of their creation. *)
Definition array_index (k : string) : option N :=
  match NilEmpty.uint_of_string k with
  | Some d =>
      let n := N.of_uint d in
      if String.eqb (NilZero.string_of_uint (N.to_uint n)) k && N.leb n 4294967294
      then Some n else None
  | None => None
  end.

(** Assigning to a key the object owns keeps the key where it is. *)
Fixpoint obj_update {A} (k : string) (v : A) (o : Obj A) : Obj A :=
  match o with
  | [] => []
  | (k', v') :: o' =>
      if String.eqb k k' then (k', v) :: o' else (k', v') :: obj_update k v o'
  end.

(** A new array index goes before the first key that is a larger index or
    no index at all. *)
Fixpoint insert_index {A} (n : N) (k : string) (v : A) (o : Obj A) : Obj A :=
  match o with
  | [] => [(k, v)]
  | (k', v') :: o' =>
      match array_index k' with
      | Some n' => if N.ltb n' n then (k', v') :: insert_index n k v o' else (k, v) :: o
      | None => (k, v) :: o
      end
  end.

(** [o[k] = v].  For a key the object does not own, [__proto__] reaches
    the setter of [Object.prototype], which creates no key: it changes
    the prototype when [v] is an object and does nothing otherwise. *)
Definition obj_set {A} (k : string) (v : A) (o : Obj A) : Obj A :=
  match obj_get k o with
  | Some _ => obj_update k v o
  | None =>
      if String.eqb k "__proto__" then o
      else match array_index k with
           | Some n => insert_index n k v o
           | None => (o ++ [(k, v)])%list
           end
  end.

(** [Object.assign(target, source)] *)
Definition obj_assign {A} (target source : Obj A) : Obj A :=
  fold_left (fun t kv => obj_set (fst kv) (snd kv) t) source target.

(** [s.includes(sep)] *)
Fixpoint includes (sep s : string) : bool :=
  prefix sep s ||
  match s with
  | EmptyString => false
  | String _ s' => includes sep s'
  end.

(** The scan of [String.prototype.split] for a non-empty separator:
    [cur] is the segment read so far, [skip] the number of characters of
    a separator occurrence that are still to be passed over. *)
Fixpoint split_from (sep : string) (skip : nat) (cur s : string) : list string :=
  match s with
  | EmptyString => [cur]
  | String c s' =>
      match skip with
      | S k => split_from sep k cur s'
      | O =>
          if prefix sep s
          then cur :: split_from sep (String.length sep - 1) "" s'
          else split_from sep 0 (cur ++ String c "") s'
      end
  end.

(** [s.split(sep)]; with the empty separator the string falls apart into
    its code units. *)
Definition split_str (sep s : string) : list string :=
  match sep with
  | EmptyString => map (fun c => String c "") (list_ascii_of_string s)
  | _ => split_from sep 0 "" s
  end.

(** [s.split(sep)] where [sep] may be [undefined]: then nothing is cut. *)
Definition split (sep : option string) (s : string) : list string :=
  match sep with
  | Some sp => split_str sp s
  | None => [s]
  end.

(** [l.join(sep)]; an [undefined] separator means a comma. *)
Definition join (sep : option string) (l : list string) : string :=
  String.concat (match sep with Some sp => sp | None => "," end) l.

(** [l.includes(x)] on an array of strings *)
Definition arr_includes (x : string) (l : list string) : bool :=
  existsb (String.eqb x) l.

(** [l.sort()] on an array of strings: ascending code-unit order. *)
Fixpoint sort_insert (x : string) (l : list string) : list string :=
  match l with
  | [] => [x]
  | y :: l' => if String.leb x y then x :: l else y :: sort_insert x l'
  end.

Definition sort (l : list string) : list string :=
  fold_right sort_insert [] l.

(** The elements of an array paired with their indices, as a callback of
    [forEach] or [reduce] receives them. *)
Fixpoint indexed_from {A} (i : nat) (l : list A) : list (nat * A) :=
  match l with
  | [] => []
  | x :: l' => (i, x) :: indexed_from (S i) l'
  end.

Definition indexed {A} (l : list A) : list (nat * A) := indexed_from 0 l.

(** A [Set<string>]: its members in insertion order. *)
Definition set_delete (x : string) (s : list string) : list string :=
  filter (fun y => negb (String.eqb x y)) s.

Definition set_add (x : string) (s : list string) : list string :=
  if arr_includes x s then s else s ++ [x].

End Js.

Import Js.

(** ** types/olo-id.constants.ts *)

Definition ID_TYPE_UNDEFINED : string := "UNDEFINED".
Definition ID_PROP_UNDEFINED : string := "UNDEFINED".
Definition ID_TYPE_SEPARATOR : string := "/".

(** ** The static fields of [OloIdSyntax] *)

Record Registry : Type := mkRegistry {
  separator : option string;       (* undefined until the first constructor runs *)
  syntaxes : list string           (* Set<string> *)
}.

(** The state of a freshly loaded module. *)
Definition fresh : Registry := mkRegistry None [].

(** A syntax as callers give it: a separator-joined string, an array of
    names, or an object whose keys are the names. *)
Inductive SyntaxArg : Type :=
| SynString (s : string)
| SynArray (names : list string)
| SynUri (uri : Obj Value).

(** ** lib/olo-id-syntax.ts *)

Module OloIdSyntax.

Definition getSeparator (st : Registry) : option string := separator st.

Definition getSyntaxMatrix (st : Registry) (set : list string) : list (list string) :=
  map (split (separator st)) set.

Definition normSyntax (st : Registry) (syntax : option SyntaxArg) : list string :=
  let normSyntax :=
    match syntax with
    | Some (SynString s) => split (separator st) s
    | Some (SynArray names) => names
    | Some (SynUri uri) => sort (obj_keys uri)
    | None => sort []
    end in
  filter (fun syntaxItem => negb (String.eqb syntaxItem "")) normSyntax.

(** One round of the [forEach] of [registerSyntaxes]. *)
Definition register_one (st : Registry) (set : list string) (syntax : SyntaxArg) : list string :=
  let inputSyntax := normSyntax st (Some syntax) in
  if Nat.ltb 0 (List.length inputSyntax)
  then set_add (join (separator st) inputSyntax) (set_delete ID_TYPE_UNDEFINED set)
  else set.

Definition registerSyntaxes (syntaxes_ : list SyntaxArg) (st : Registry)
  : list (list string) * Registry :=
  let set := fold_left (register_one st) syntaxes_ (syntaxes st) in
  let st' := mkRegistry (separator st) set in
  (getSyntaxMatrix st' set, st').

(** [new OloIdSyntax(syntaxes, { seperator })]; [None] stands for an
    argument left out, which takes its default. *)
Definition new (syntaxes_ : option (list SyntaxArg)) (seperator : option string)
           (st : Registry) : Registry :=
  let syntaxes_ := match syntaxes_ with Some l => l | None => [SynString ID_TYPE_UNDEFINED] end in
  let seperator := match seperator with Some s => s | None => ID_TYPE_SEPARATOR end in
  let st1 := mkRegistry
               (match separator st with Some s => Some s | None => Some seperator end)
               (syntaxes st) in
  snd (registerSyntaxes syntaxes_ st1).

Definition getSyntaxes (syntax : option SyntaxArg) (register : bool) (st : Registry)
  : list (list string) * Registry :=
  let inputSyntax := normSyntax st syntax in
  if Nat.eqb (List.length inputSyntax) 0 then (getSyntaxMatrix st (syntaxes st), st)
  else
    let syntaxMatcher (testSyntax : list string) :=
      Nat.eqb (List.length (filter (fun syntaxItem => negb (arr_includes syntaxItem inputSyntax)) testSyntax)) 0 in
    match find (fun syntax => syntaxMatcher syntax && Nat.eqb (List.length syntax) (List.length inputSyntax))
               (getSyntaxMatrix st (syntaxes st)) with
    | Some found => ([found], st)
    | None =>
        let result := [inputSyntax] in
        if register
        then (result, snd (registerSyntaxes [SynArray inputSyntax] st))
        else (result, st)
    end.

Definition setSyntaxes (syntaxes_ : option (list SyntaxArg)) (st : Registry)
  : list (list string) * Registry :=
  match syntaxes_ with
  | Some l => registerSyntaxes l st
  | None => getSyntaxes None false st
  end.

End OloIdSyntax.

(** ** types/olo-id.types.ts: [OloIdOptions] *)

Record OloIdOptions : Type := mkOptions {
  opt_syntax : option SyntaxArg;       (* a joined string or an array of names *)
  opt_register : bool;                 (* default false *)
  opt_separator : option string
}.

Definition no_options : OloIdOptions := mkOptions None false None.

(** ** The instances *)

(** The private fields of an [OloId]. *)
Record OloId : Type := mkOloId {
  id_separator : option string;
  id_syntax : list string;
  id_uri : Obj Value
}.

(** The private field [uri] of an [OloIdSet]: an [OloIdMap]. *)
Record OloIdSet : Type := mkOloIdSet {
  set_uri : Obj OloId
}.

(** What [isSame] can be handed. *)
Inductive Comparand : Type :=
| CString (s : string)
| CUri (uri : Obj Value)
| CId (id : OloId)
| CSet (set : OloIdSet).

(** ** lib/olo-id.ts *)

Module OloId.

(** What the constructor can be handed. *)
Inductive Source : Type :=
| SrcString (s : string)
| SrcUri (uri : Obj Value)
| SrcId (id : OloId)
| SrcUndefined.   (* what [OloIdSet] passes for a key it does not find *)

Definition toJSON (this : OloId) : Obj Value := id_uri this.

(** [toSyntaxString(separator = this.separator)] *)
Definition toSyntaxString (this : OloId) (separator : option string) : string :=
  join (match separator with Some s => Some s | None => id_separator this end)
       (id_syntax this).

(** [this.syntax.map(key => this.uri[key])] *)
Definition values (this : OloId) : list Value :=
  map (fun key => get (id_uri this) key) (id_syntax this).

(** [toString(separator = this.separator)] *)
Definition toString (this : OloId) (separator : option string) : string :=
  join (match separator with Some s => Some s | None => id_separator this end)
       (map to_string (values this)).

(** [uriList[index] || ID_PROP_UNDEFINED] *)
Definition segment_or_undefined (uriList : list string) (index : nat) : Value :=
  match nth_error uriList index with
  | Some s => or_else (VStr s) (VStr ID_PROP_UNDEFINED)
  | None => VStr ID_PROP_UNDEFINED
  end.

(** The body of the [forEach] that fills [this.uri]. *)
Definition fill (sep : option string) (uri : Source) (workingUri : option (Obj Value))
           (acc : Obj Value) (entry : nat * string) : Obj Value :=
  let (index, identifierProperty) := entry in
  match workingUri with
  | Some w => obj_set identifierProperty (or_else (get w identifierProperty) (VStr ID_PROP_UNDEFINED)) acc
  | None =>
      match uri with
      | SrcString s => obj_set identifierProperty (segment_or_undefined (split sep s) index) acc
      | _ => acc
      end
  end.

(** An undefined [uri] makes the first round of the [forEach] throw:
    it calls [split] on it. *)
Definition forEach_throws (uri : Source) (syntax : list string) : bool :=
  match uri, syntax with
  | SrcUndefined, _ :: _ => true
  | _, _ => false
  end.

(** [new OloId(uri, { syntax, register, separator })].  The instance is
    [None] when the constructor throws: [getSyntaxes] came back empty and
    [this.syntax] is undefined, or [uri] is undefined and the first
    round of the [forEach] calls [split] on it. *)
Definition new (uri : Source) (options : OloIdOptions) (st : Registry)
  : option OloId * Registry :=
  let st1 := OloIdSyntax.new None None st in
  let sep := match opt_separator options with
             | Some s => Some s
             | None => OloIdSyntax.getSeparator st1
             end in
  let workingUri := match uri with
                    | SrcId id => Some (toJSON id)
                    | SrcString _ => None
                    | SrcUri u => Some u
                    | SrcUndefined => None
                    end in
  let (found, st2) :=
    OloIdSyntax.getSyntaxes
      (match opt_syntax options with
       | Some s => Some s
       | None => option_map SynUri workingUri
       end)
      (opt_register options) st1 in
  match found with
  | [] => (None, st2)
  | syntax :: _ =>
      if forEach_throws uri syntax then (None, st2)
      else (Some (mkOloId sep syntax (fold_left (fill sep uri workingUri) (indexed syntax) [])), st2)
  end.

(** [isOloId(obj)] on the things [isSame] can be handed: of these only an
    [OloId] has a [syntax] array. *)
Definition isOloId (c : Comparand) : bool :=
  match c with
  | CId _ => true
  | _ => false
  end.

(** [syntaxList] of [isSame]; the option is a string or an array. *)
Definition syntaxList (this : OloId) (syntax : option SyntaxArg) : list string :=
  match syntax with
  | Some (SynArray names) => names
  | Some (SynString s) => split (id_separator this) s
  | _ => id_syntax this
  end.

(** [identifier.split(this.separator)[index] ?? ''] *)
Definition segment_or_empty (uriList : list string) (index : nat) : string :=
  match nth_error uriList index with
  | Some s => s
  | None => ""
  end.

(** [compId] for a string [identifier] *)
Definition parse (this : OloId) (identifier : string) (syntaxList : list string) : Obj Value :=
  fold_left
    (fun acc (entry : nat * string) =>
       let (index, key) := entry in
       obj_set key
         (VStr (if Nat.eqb (List.length syntaxList) 1 then identifier
                else segment_or_empty (split (id_separator this) identifier) index))
         acc)
    (indexed syntaxList) [].

(** [compId[key]].  The result is [None] when the property holds an
    object or a function that is [===] to no stored value.  An
    [OloIdSet] read as a plain object has the own properties
    [oloIdSyntax] and [uri], both objects; [constructor], [isSame],
    [toString] and [toJSON] are members of [OloIdSet.prototype], which is
    also what [__proto__] reads as; every other key goes on to
    [Object.prototype]. *)
Definition compId (this : OloId) (identifier : Comparand) (syntax : option SyntaxArg)
           (key : string) : option Value :=
  match identifier with
  | CId other => Some (get (id_uri other) key)
  | CString s => Some (get (parse this s (syntaxList this syntax)) key)
  | CUri u => Some (get u key)
  | CSet _ =>
      if arr_includes key ["oloIdSyntax"; "uri";
                           "constructor"; "isSame"; "toString"; "toJSON"; "__proto__"]
      then None
      else Some (inherited key)
  end.

Definition isSame (this : OloId) (identifier : Comparand) (syntax : option SyntaxArg) : bool :=
  fold_left
    (fun (result : bool) key =>
       if negb result then result
       else match compId this identifier syntax key with
            | Some v => value_eqb v (get (id_uri this) key)
            | None => false
            end)
    (obj_keys (id_uri this)) true.

End OloId.

(** ** lib/olo-id-set.ts *)

Module OloIdSet.

(** What the constructor can be handed. *)
Inductive Source : Type :=
| SrcString (s : string)
| SrcUri (uri : Obj Value)
| SrcMap (ids : Obj OloId)
| SrcSet (set : OloIdSet).

(** [toJSON(uri)]: the members' value maps merged, later ones winning. *)
Definition merge (uri : Obj OloId) : Obj Value :=
  fold_left (fun json id => obj_assign json (id_uri id)) (obj_values uri) [].

Definition toJSON (this : OloIdSet) : Obj Value := merge (set_uri this).

Definition toString (this : OloIdSet) : string :=
  join (Some " ") (map (fun id => OloId.toString id None) (obj_values (set_uri this))).

(** [isOloIdSet(obj)]: [obj.uri] is an object all of whose values are
    [OloId]s.  An [OloId] passes when its value map is empty. *)
Definition isOloIdSet (c : Comparand) : bool :=
  match c with
  | CSet _ => true
  | CId id => match id_uri id with [] => true | _ => false end
  | _ => false
  end.

(** [id] of [isSame]: a set is replaced by its merged value map. *)
Definition normalize (identifier : Comparand) : Comparand :=
  if isOloIdSet identifier
  then match identifier with
       | CSet other => CUri (merge (set_uri other))
       | CId _ => CUri (merge [])
       | _ => identifier
       end
  else identifier.

Definition isSame (this : OloIdSet) (identifier : Comparand) (syntax : option SyntaxArg) : bool :=
  let id := normalize identifier in
  fold_left (fun (result : bool) uri => result || OloId.isSame uri id syntax)
            (obj_values (set_uri this)) false.

(** The branch of the constructor for a map of [OloId]s: the keys are
    resolved first, then one [OloId] is built per resolved key.  The
    instance is [None] when a constructor throws. *)
Definition resolve_keys (register : bool) (keys : list string) (st : Registry)
  : list (list string) * Registry :=
  fold_left
    (fun (acc : list (list string) * Registry) uriKey =>
       let (found, st') := OloIdSyntax.getSyntaxes (Some (SynString uriKey)) register (snd acc) in
       (app (fst acc) [match found with s :: _ => s | [] => [] end], st'))
    keys ([], st).

(** One round of the [forEach] over the resolved keys.  [uri[syntaxKey]]
    is the member under a key that the map owns and [undefined] for
    another key.  The maps covered are those that are not asked for the
    name of a member of [Object.prototype] which they do not own: there
    the constructor of [OloId] would be handed that member. *)
Definition adopt (ids : Obj OloId) (options : OloIdOptions)
           (acc : option (Obj OloId) * Registry) (syntaxItem : list string)
  : option (Obj OloId) * Registry :=
  match fst acc with
  | None => acc
  | Some uri =>
      let st := snd acc in
      let syntaxKey :=
        join (match opt_separator options with
              | Some s => Some s
              | None => OloIdSyntax.getSeparator st
              end) syntaxItem in
      let member := match obj_get syntaxKey ids with
                    | Some id => OloId.SrcId id
                    | None => OloId.SrcUndefined
                    end in
      match OloId.new member options st with
      | (Some id, st') => (Some (obj_set syntaxKey id uri), st')
      | (None, st') => (None, st')
      end
  end.

(** The branch of the constructor for a value map or another set. *)
Definition interpret (workingUri : Obj Value) (sep : option string)
           (acc : option (Obj OloId) * Registry) (syntaxItem : list string)
  : option (Obj OloId) * Registry :=
  match fst acc with
  | None => acc
  | Some uri =>
      match OloId.new (OloId.SrcUri workingUri)
                      (mkOptions (Some (SynArray syntaxItem)) false sep) (snd acc) with
      | (Some id, st') => (Some (obj_set (OloId.toSyntaxString id None) id uri), st')
      | (None, st') => (None, st')
      end
  end.

Definition new (uri : Source) (options : OloIdOptions) (st : Registry)
  : option OloIdSet * Registry :=
  let st1 := OloIdSyntax.new None None st in
  let from_map (ids : Obj OloId) :=
    let (resolved, st2) := resolve_keys (opt_register options) (obj_keys ids) st1 in
    let (built, st3) := fold_left (adopt ids options) resolved (Some [], st2) in
    (option_map mkOloIdSet built, st3) in
  let from_uri (workingUri : Obj Value) :=
    let (found, st2) :=
      OloIdSyntax.getSyntaxes (Some (SynUri workingUri)) (opt_register options) st1 in
    let (built, st3) :=
      fold_left (interpret workingUri (opt_separator options)) found (Some [], st2) in
    (option_map mkOloIdSet built, st3) in
  match uri with
  | SrcString s =>
      match OloId.new (OloId.SrcString s) options st1 with
      | (Some id, st2) => (Some (mkOloIdSet [(OloId.toSyntaxString id None, id)]), st2)
      | (None, st2) => (None, st2)
      end
  | SrcMap ids => from_map ids
  | SrcUri [] => from_map []
  | SrcUri workingUri => from_uri workingUri
  | SrcSet other => from_uri (merge (set_uri other))
  end.

End OloIdSet.

(** * Notions used in the statements *)

(** ** Filling an object *)

(** An object filled by a loop that assigns [f e] to the key [key e] for
    each element [e] in turn. *)
Definition fill_with {A E : Type} (key : E -> string) (f : E -> A) (l : list E) (o : Obj A) : Obj A :=
  fold_left (fun acc e => obj_set (key e) (f e) acc) l o.

(** [workingUri] of the constructor of [OloId] *)
Definition workingUri_of (uri : OloId.Source) : option (Obj Value) :=
  match uri with
  | OloId.SrcId id => Some (OloId.toJSON id)
  | OloId.SrcUri u => Some u
  | _ => None
  end.

(** The value the constructor stores for one entry of the syntax. *)
Definition stored (sep : option string) (uri : OloId.Source) (entry : nat * string) : Value :=
  match uri with
  | OloId.SrcString s => OloId.segment_or_undefined (split sep s) (fst entry)
  | OloId.SrcUri w => or_else (get w (snd entry)) (VStr ID_PROP_UNDEFINED)
  | OloId.SrcId id => or_else (get (OloId.toJSON id) (snd entry)) (VStr ID_PROP_UNDEFINED)
  | OloId.SrcUndefined => VUndef
  end.

(** [delete m[p]] *)
Definition obj_remove {A} (p : string) (m : Obj A) : Obj A :=
  filter (fun kv => negb (String.eqb p (fst kv))) m.

(** ** The order of the keys of an object *)

(** [a] is listed before [b]: array indices in ascending order, and every
    array index before every other key. *)
Definition key_before (a b : string) : Prop :=
  match array_index a, array_index b with
  | Some x, Some y => (x < y)%N
  | Some _, None => True
  | None, Some _ => False
  | None, None => True
  end.

(** Keys in an order in which [Object.keys] can list them. *)
Definition enumerated (keys : list string) : Prop := StronglySorted key_before keys.

(** A key that an assignment creates at the end of the object: neither
    an array index nor [__proto__]. *)
Definition plain_name (k : string) : bool :=
  match array_index k with
  | Some _ => false
  | None => negb (String.eqb k "__proto__")
  end.

(** ** Resolution *)

(** The test [getSyntaxes] puts each registered syntax to: all its names
    are among those asked for, and there are as many. *)
Definition matches (inputSyntax testSyntax : list string) : bool :=
  Nat.eqb (List.length (filter (fun syntaxItem => negb (arr_includes syntaxItem inputSyntax))
                               testSyntax)) 0
  && Nat.eqb (List.length testSyntax) (List.length inputSyntax).

(** ** Comparison *)

(** What the members of a set are compared with: the comparand itself,
    except that another set is first replaced by its merged value map. *)
Definition comparand_view (x : Comparand) : Comparand :=
  match x with
  | CSet other => CUri (OloIdSet.toJSON other)
  | _ => x
  end.

(** ** Histories of the registry *)

(** Everything a caller can do that reaches the static fields. *)
Inductive Op : Type :=
| NewOloIdSyntax (syntaxes_ : option (list SyntaxArg)) (seperator : option string)
| SetSyntaxes (syntaxes_ : option (list SyntaxArg))
| GetSyntaxes (syntax : option SyntaxArg) (register : bool)
| NewOloId (uri : OloId.Source) (options : OloIdOptions)
| NewOloIdSet (uri : OloIdSet.Source) (options : OloIdOptions).

Definition step (st : Registry) (op : Op) : Registry :=
  match op with
  | NewOloIdSyntax syntaxes_ seperator => OloIdSyntax.new syntaxes_ seperator st
  | SetSyntaxes syntaxes_ => snd (OloIdSyntax.setSyntaxes syntaxes_ st)
  | GetSyntaxes syntax register => snd (OloIdSyntax.getSyntaxes syntax register st)
  | NewOloId uri options => snd (OloId.new uri options st)
  | NewOloIdSet uri options => snd (OloIdSet.new uri options st)
  end.

Definition run (ops : list Op) (st : Registry) : Registry := fold_left step ops st.

Definition is_constructor (op : Op) : bool :=
  match op with
  | NewOloIdSyntax _ _ | NewOloId _ _ | NewOloIdSet _ _ => true
  | _ => false
  end.

(** The separator a first construction installs: the [seperator] option
    of an [OloIdSyntax], and the default for everything else. *)
Definition installed (op : Op) : string :=
  match op with
  | NewOloIdSyntax _ (Some s) => s
  | _ => ID_TYPE_SEPARATOR
  end.

(** The global separator is [s]. *)
Definition kept (s : string) (st : Registry) : Prop := separator st = Some s.

(** ** Instances that the examples use *)

Definition with_syntax (names : list string) : OloIdOptions :=
  mkOptions (Some (SynArray names)) false None.

(** [new OloId({ type: 'user' })] and [new OloId({ type: 'user', id: '1' })] *)
Definition id_type : OloId :=
  mkOloId (Some "/") ["type"] [("type", VStr "user")].
Definition id_type_id : OloId :=
  mkOloId (Some "/") ["id"; "type"] [("id", VStr "1"); ("type", VStr "user")].


(** [new OloId('user/123', { syntax: ['type', 'id'] })] *)
Definition id_user_123 : OloId :=
  mkOloId (Some "/") ["type"; "id"] [("type", VStr "user"); ("id", VStr "123")].

(** [id1] and [idSet1] of the repository's tests:
    [new OloId('value1/value2', { syntax: ['type1', 'type2'] })] and the
    set made of it. *)
Definition id1 : OloId :=
  mkOloId (Some "/") ["type1"; "type2"] [("type1", VStr "value1"); ("type2", VStr "value2")].
Definition idSet1 : OloIdSet := mkOloIdSet [("type1/type2", id1)].

(** The registry after [new OloIdSyntax([['type', 'id'], ['username', 'domain']])],
    and a value map with the names of both syntaxes. *)
Definition two_syntaxes : Registry :=
  OloIdSyntax.new (Some [SynArray ["type"; "id"]; SynArray ["username"; "domain"]]) None fresh.
Definition user_uri : Obj Value :=
  [("type", VStr "user"); ("id", VStr "123"); ("username", VStr "a"); ("domain", VStr "b.com")].

(** The registry after
    [new OloIdSyntax(['type1/type2', ['type3', 'type4'], 'type1/type3'])]. *)
Definition three : Registry :=
  OloIdSyntax.new
    (Some [SynString "type1/type2"; SynArray ["type3"; "type4"]; SynString "type1/type3"])
    None fresh.

(** ** More histories of the registry *)

(** Everything registered in [st], the sentinel apart, is still registered
    in [st']. *)
Definition survives (st st' : Registry) : Prop :=
  forall s, s <> ID_TYPE_UNDEFINED -> In s (syntaxes st) -> In s (syntaxes st').

(** The calls that do not ask for a registration: constructions without
    syntaxes to register and without [register], and resolutions without
    [register]. *)
Definition reads_only (op : Op) : bool :=
  match op with
  | NewOloIdSyntax None _ => true
  | NewOloIdSyntax (Some l) _ => match l with [] => true | _ => false end
  | SetSyntaxes None => true
  | SetSyntaxes (Some l) => match l with [] => true | _ => false end
  | GetSyntaxes _ register => negb register
  | NewOloId _ options => negb (opt_register options)
  | NewOloIdSet _ options => negb (opt_register options)
  end.

(** The constructions that run [new OloIdSyntax()] with its default
    argument, which registers the sentinel: an [OloIdSyntax] made without
    syntaxes, and every [OloId] and [OloIdSet] through its field
    [oloIdSyntax]. *)
Definition default_construction (op : Op) : bool :=
  match op with
  | NewOloIdSyntax None _ => true
  | NewOloId _ _ => true
  | NewOloIdSet _ _ => true
  | _ => false
  end.

(** What one element of the argument of [registerSyntaxes] adds to the
    set: its names joined, when it has any. *)
Definition entry (st : Registry) (syntax : SyntaxArg) : option string :=
  let inputSyntax := OloIdSyntax.normSyntax st (Some syntax) in
  if Nat.ltb 0 (List.length inputSyntax)
  then Some (join (separator st) inputSyntax)
  else None.

(** The last element of the argument that adds something. *)
Definition last_entry (st : Registry) (syntaxes_ : list SyntaxArg) : option string :=
  fold_left (fun acc syntax => match entry st syntax with Some x => Some x | None => acc end)
            syntaxes_ None.

(** [workingUri] of the constructor of [OloIdSet]: the value map handed
    in, or the merged value map of the set handed in. *)
Definition set_workingUri_of (uri : OloIdSet.Source) : option (Obj Value) :=
  match uri with
  | OloIdSet.SrcUri m => Some m
  | OloIdSet.SrcSet other => Some (OloIdSet.toJSON other)
  | _ => None
  end.

(** A set with two members, one of them with two names. *)
Definition pair_set : OloIdSet :=
  mkOloIdSet [("type", id_type); ("type/id", id_user_123)].

(** * Properties *)

(** ** Objects and values *)

Section ObjFacts.

Context {A : Type}.

Lemma obj_get_in_keys (k : string) (o : Obj A) :
  In k (obj_keys o) <-> exists v, obj_get k o = Some v.
Proof.
  unfold obj_keys. induction o as [|[k0 v0] o IH]; simpl.
  - split; [tauto | intros [v Hv]; discriminate].
  - destruct (String.eqb_spec k k0) as [->|Hk].
    + split; eauto.
    + rewrite <- IH. intuition congruence.
Qed.

Lemma obj_get_none (k : string) (o : Obj A) :
  ~ In k (obj_keys o) -> obj_get k o = None.
Proof.
  intros H. destruct (obj_get k o) eqn:E; auto.
  exfalso. apply H. apply obj_get_in_keys. eauto.
Qed.

Lemma obj_get_not_in_keys (k : string) (o : Obj A) :
  obj_get k o = None -> ~ In k (obj_keys o).
Proof.
  intros Hnone Hin. destruct (proj1 (obj_get_in_keys _ _) Hin) as [v Hv]. congruence.
Qed.

Lemma obj_get_app (k : string) (o1 o2 : Obj A) :
  obj_get k (o1 ++ o2)%list
  = match obj_get k o1 with Some x => Some x | None => obj_get k o2 end.
Proof.
  induction o1 as [|[k1 v1] o1 IH]; simpl; auto.
  destruct (String.eqb k k1); auto.
Qed.

(** *** Assigning to a key the object owns *)

Lemma obj_update_keys (k : string) (v : A) (o : Obj A) :
  obj_keys (obj_update k v o) = obj_keys o.
Proof.
  unfold obj_keys. induction o as [|[k1 v1] o IH]; simpl; auto.
  destruct (String.eqb k k1); simpl; [|rewrite IH]; auto.
Qed.

Lemma obj_update_get_same (k : string) (v : A) (o : Obj A) :
  In k (obj_keys o) -> obj_get k (obj_update k v o) = Some v.
Proof.
  unfold obj_keys. induction o as [|[k1 v1] o IH]; simpl; [tauto|].
  intros Hin. destruct (String.eqb k k1) eqn:E; simpl; rewrite E; auto.
  apply IH. destruct Hin as [<-|Hin]; auto. now rewrite String.eqb_refl in E.
Qed.

Lemma obj_update_get_other (k k' : string) (v : A) (o : Obj A) :
  k <> k' -> obj_get k (obj_update k' v o) = obj_get k o.
Proof.
  intros Hne. induction o as [|[k1 v1] o IH]; simpl; auto.
  destruct (String.eqb_spec k' k1) as [->|Hk]; simpl.
  - destruct (String.eqb_spec k k1); congruence.
  - destruct (String.eqb_spec k k1); auto.
Qed.

(** *** Creating a key *)

Lemma insert_index_perm (n : N) (k : string) (v : A) (o : Obj A) :
  Permutation (insert_index n k v o) ((k, v) :: o).
Proof.
  induction o as [|[k1 v1] o IH]; simpl; auto.
  destruct (array_index k1) as [n1|]; auto.
  destruct (N.ltb n1 n); auto.
  etransitivity; [apply perm_skip, IH|apply perm_swap].
Qed.

Lemma insert_index_get_same (n : N) (k : string) (v : A) (o : Obj A) :
  obj_get k o = None -> obj_get k (insert_index n k v o) = Some v.
Proof.
  induction o as [|[k1 v1] o IH]; simpl.
  - now rewrite String.eqb_refl.
  - destruct (String.eqb k k1) eqn:E; [discriminate|]. intros Hnone.
    destruct (array_index k1) as [n1|]; [destruct (N.ltb n1 n)|]; simpl;
      rewrite ?E, ?String.eqb_refl; auto.
Qed.

Lemma insert_index_get_other (n : N) (k k' : string) (v : A) (o : Obj A) :
  k' <> k -> obj_get k' (insert_index n k v o) = obj_get k' o.
Proof.
  intros Hne. apply String.eqb_neq in Hne.
  induction o as [|[k1 v1] o IH]; simpl.
  - now rewrite Hne.
  - destruct (array_index k1) as [n1|]; [destruct (N.ltb n1 n)|]; simpl;
      rewrite ?Hne, ?IH; auto.
Qed.

(** What [o[k] = v] does, case by case. *)
Lemma obj_set_own (k : string) (v : A) (o : Obj A) :
  In k (obj_keys o) -> obj_set k v o = obj_update k v o.
Proof.
  intros H. apply obj_get_in_keys in H. destruct H as [w Hw].
  unfold obj_set. now rewrite Hw.
Qed.

Lemma obj_set_proto (v : A) (o : Obj A) :
  ~ In "__proto__" (obj_keys o) -> obj_set "__proto__" v o = o.
Proof. intros H. unfold obj_set. now rewrite (obj_get_none _ _ H). Qed.

Lemma obj_set_index (n : N) (k : string) (v : A) (o : Obj A) :
  ~ In k (obj_keys o) -> array_index k = Some n -> obj_set k v o = insert_index n k v o.
Proof.
  intros H Hn. unfold obj_set. rewrite (obj_get_none _ _ H), Hn.
  destruct (String.eqb_spec k "__proto__") as [->|_]; [discriminate Hn|reflexivity].
Qed.

Lemma obj_set_name (k : string) (v : A) (o : Obj A) :
  ~ In k (obj_keys o) -> k <> "__proto__" -> array_index k = None ->
  obj_set k v o = (o ++ [(k, v)])%list.
Proof.
  intros H Hp Hn. unfold obj_set. rewrite (obj_get_none _ _ H), Hn.
  apply String.eqb_neq in Hp. now rewrite Hp.
Qed.

Lemma obj_set_perm (k : string) (v : A) (o : Obj A) :
  ~ In k (obj_keys o) -> k <> "__proto__" -> Permutation (obj_set k v o) ((k, v) :: o).
Proof.
  intros H Hp. destruct (array_index k) as [n|] eqn:E.
  - rewrite (obj_set_index n) by auto. apply insert_index_perm.
  - rewrite obj_set_name by auto. apply Permutation_sym, Permutation_cons_append.
Qed.

Lemma obj_get_set_same (k : string) (v : A) (o : Obj A) :
  k <> "__proto__" \/ In k (obj_keys o) -> obj_get k (obj_set k v o) = Some v.
Proof.
  intros H. destruct (obj_get k o) as [w|] eqn:E.
  - rewrite obj_set_own by (apply obj_get_in_keys; eauto).
    apply obj_update_get_same. apply obj_get_in_keys; eauto.
  - pose proof (obj_get_not_in_keys _ _ E) as Hnot.
    destruct H as [Hp|Hin]; [|contradiction].
    destruct (array_index k) as [n|] eqn:En.
    + rewrite (obj_set_index n) by auto. now apply insert_index_get_same.
    + rewrite obj_set_name by auto. rewrite obj_get_app, E. simpl.
      now rewrite String.eqb_refl.
Qed.

Lemma obj_get_set_other (k k' : string) (v : A) (o : Obj A) :
  k <> k' -> obj_get k (obj_set k' v o) = obj_get k o.
Proof.
  intros Hne. unfold obj_set. destruct (obj_get k' o) as [w|] eqn:E.
  - now apply obj_update_get_other.
  - destruct (String.eqb k' "__proto__"); auto.
    destruct (array_index k') as [n|].
    + now apply insert_index_get_other.
    + rewrite obj_get_app. destruct (obj_get k o); auto. simpl.
      apply String.eqb_neq in Hne. now rewrite Hne.
Qed.

Lemma obj_keys_set (k k' : string) (v : A) (o : Obj A) :
  In k (obj_keys (obj_set k' v o))
  <-> (k = k' /\ k' <> "__proto__") \/ In k (obj_keys o).
Proof.
  destruct (in_dec string_dec k' (obj_keys o)) as [Hown|Hnot].
  - rewrite obj_set_own, obj_update_keys by auto. intuition (subst; auto).
  - destruct (string_dec k' "__proto__") as [->|Hp].
    + rewrite obj_set_proto by auto. intuition.
    + pose proof (Permutation_map fst (obj_set_perm k' v o Hnot Hp)) as Hperm.
      fold (obj_keys (obj_set k' v o)) in Hperm. simpl in Hperm. split.
      * intros Hin. apply (Permutation_in _ Hperm) in Hin.
        destruct Hin as [<-|Hin]; auto.
      * intros Hin. apply (Permutation_in _ (Permutation_sym Hperm)).
        destruct Hin as [[-> _]|Hin]; simpl; auto.
Qed.

Lemma obj_set_nodup (k : string) (v : A) (o : Obj A) :
  NoDup (obj_keys o) -> NoDup (obj_keys (obj_set k v o)).
Proof.
  intros H. destruct (in_dec string_dec k (obj_keys o)) as [Hown|Hnot].
  - now rewrite obj_set_own, obj_update_keys.
  - destruct (string_dec k "__proto__") as [->|Hp].
    + now rewrite obj_set_proto.
    + unfold obj_keys.
      apply (Permutation_NoDup
               (Permutation_sym (Permutation_map fst (obj_set_perm k v o Hnot Hp)))).
      simpl. now constructor.
Qed.

(** *** Objects filled by a loop *)

Lemma fill_with_keys {E} (key : E -> string) (f : E -> A) (l : list E) (o : Obj A) (k : string) :
  In k (obj_keys (fill_with key f l o))
  <-> (In k (map key l) /\ k <> "__proto__") \/ In k (obj_keys o).
Proof.
  unfold fill_with. revert o. induction l as [|e l IH]; intros o; simpl.
  - tauto.
  - rewrite IH, obj_keys_set. intuition (subst; auto).
Qed.

Lemma fill_with_keep {E} (key : E -> string) (f : E -> A) (l : list E) (o : Obj A) (k : string) (v : A) :
  obj_get k o = Some v ->
  (forall e, In e l -> key e = k -> f e = v) ->
  obj_get k (fill_with key f l o) = Some v.
Proof.
  unfold fill_with. revert o. induction l as [|e l IH]; intros o Hget Hall; simpl; auto.
  apply IH.
  - destruct (String.eqb_spec k (key e)) as [->|Hne].
    + rewrite obj_get_set_same by (right; apply obj_get_in_keys; eauto).
      f_equal. apply Hall; simpl; auto.
    + rewrite obj_get_set_other; auto.
  - intros e' He'. apply Hall. simpl; auto.
Qed.

Lemma fill_with_get {E} (key : E -> string) (f : E -> A) (l : list E) (o : Obj A) (k : string) (v : A) :
  In k (map key l) ->
  k <> "__proto__" ->
  (forall e, In e l -> key e = k -> f e = v) ->
  obj_get k (fill_with key f l o) = Some v.
Proof.
  revert o. induction l as [|e l IH]; intros o Hin Hp Hall; [destruct Hin|].
  change (fill_with key f (e :: l) o) with (fill_with key f l (obj_set (key e) (f e) o)).
  destruct (String.eqb_spec (key e) k) as [Heq|Hne].
  - apply fill_with_keep.
    + rewrite <- Heq, obj_get_set_same by (left; congruence).
      f_equal. apply Hall; simpl; auto.
    + intros e' He'. apply Hall; simpl; auto.
  - apply IH; auto.
    + destruct Hin; congruence.
    + intros e' He'. apply Hall; simpl; auto.
Qed.

Lemma fill_with_get_other {E} (key : E -> string) (f : E -> A) (l : list E) (o : Obj A) (k : string) :
  ~ In k (map key l) -> obj_get k (fill_with key f l o) = obj_get k o.
Proof.
  revert o. induction l as [|a l IH]; intros o H; simpl; auto.
  rewrite IH by (intros Hin; apply H; simpl; auto).
  apply obj_get_set_other. intros ->. apply H. simpl. auto.
Qed.

(** The setter of [__proto__] stores nothing. *)
Lemma fill_with_no_proto {E} (key : E -> string) (f : E -> A) (l : list E) (o : Obj A) :
  ~ In "__proto__" (obj_keys o) -> ~ In "__proto__" (obj_keys (fill_with key f l o)).
Proof. intros H Hin. apply fill_with_keys in Hin. tauto. Qed.

End ObjFacts.

Lemma value_eqb_eq (a b : Value) : value_eqb a b = true <-> a = b.
Proof.
  destruct a, b; simpl; try (split; congruence).
  - rewrite String.eqb_eq. split; congruence.
  - rewrite Z.eqb_eq. split; congruence.
  - rewrite String.eqb_eq. split; congruence.
Qed.

Lemma or_else_truthy (v : Value) : truthy (or_else v (VStr ID_PROP_UNDEFINED)) = true.
Proof. unfold or_else. destruct (truthy v) eqn:E; auto. Qed.

Lemma truthy_defined (v : Value) : truthy v = true -> v <> VUndef.
Proof. intros H ->. discriminate. Qed.

Lemma indexed_from_snd {A} (i : nat) (l : list A) : map snd (indexed_from i l) = l.
Proof. revert i. induction l; intros i; simpl; [|rewrite IHl]; auto. Qed.

Lemma indexed_snd {A} (l : list A) : map snd (indexed l) = l.
Proof. apply indexed_from_snd. Qed.

(** ** Loops over an array with its indices *)

Lemma fold_left_ext_in {A B} (f g : A -> B -> A) (l : list B) (a : A) :
  (forall x y, In y l -> f x y = g x y) -> fold_left f l a = fold_left g l a.
Proof.
  revert a. induction l as [|y l IH]; intros a H; simpl; auto.
  rewrite H by (simpl; auto). apply IH. intros x y' Hy'. apply H. simpl; auto.
Qed.

(** The last assignment to a key is the one that stays. *)
Lemma fill_with_last {A E} (key : E -> string) (f : E -> A) (l1 l2 : list E) (e : E) (o : Obj A) :
  key e <> "__proto__" ->
  (forall e', In e' l2 -> key e' <> key e) ->
  obj_get (key e) (fill_with key f (l1 ++ e :: l2) o) = Some (f e).
Proof.
  intros Hp Hlater. unfold fill_with. rewrite fold_left_app. simpl.
  apply fill_with_keep.
  - apply obj_get_set_same. now left.
  - intros e' He' Hk. now apply Hlater in He'.
Qed.

Lemma indexed_from_in {A} (n : nat) (l : list A) (e : nat * A) :
  In e (indexed_from n l) -> n <= fst e /\ nth_error l (fst e - n) = Some (snd e).
Proof.
  revert n. induction l as [|x l IH]; intros n; simpl; [tauto|].
  intros [<-|Hin]; simpl.
  - rewrite Nat.sub_diag. auto.
  - apply IH in Hin. destruct Hin as [Hle Hnth]. split; [lia|].
    replace (fst e - n) with (S (fst e - S n)) by lia. exact Hnth.
Qed.

Lemma indexed_from_split {A} (n i : nat) (l : list A) (x : A) :
  nth_error l i = Some x ->
  indexed_from n l
  = (indexed_from n (firstn i l) ++ (n + i, x) :: indexed_from (S (n + i)) (skipn (S i) l))%list.
Proof.
  revert n l. induction i as [|i IH]; intros n [|y l] H; simpl in *; try discriminate.
  - injection H as ->. now rewrite Nat.add_0_r.
  - rewrite (IH (S n) l H). now rewrite Nat.add_succ_r.
Qed.

(** The entry of the value map for the name at position [index], when no
    later position holds the same name. *)
Lemma fill_with_at {A} (f : nat * string -> A) (names : list string) (index : nat) (p : string) :
  nth_error names index = Some p ->
  p <> "__proto__" ->
  (forall j, index < j -> nth_error names j <> Some p) ->
  obj_get p (fill_with snd f (indexed names) []) = Some (f (index, p)).
Proof.
  intros Hnth Hp Hlast. unfold indexed.
  rewrite (indexed_from_split 0 index names p Hnth).
  apply (fill_with_last snd f _ _ (0 + index, p)); [exact Hp|].
  intros e' He' Hk. apply indexed_from_in in He'. destruct He' as [Hle Hn].
  simpl in Hk, Hle. rewrite Hk in Hn.
  apply (Hlast (fst e')); [lia|].
  rewrite <- Hn. rewrite nth_error_skipn. f_equal. lia.
Qed.

Lemma indexed_in {A} (l : list A) (i : nat) (x : A) :
  In (i, x) (indexed l) -> nth_error l i = Some x.
Proof.
  intros H. apply indexed_from_in in H. simpl in H. destruct H as [_ H].
  now rewrite Nat.sub_0_r in H.
Qed.

Lemma parse_fill this identifier names :
  OloId.parse this identifier names
  = fill_with snd
      (fun entry : nat * string =>
         VStr (if Nat.eqb (List.length names) 1 then identifier
               else OloId.segment_or_empty (split (id_separator this) identifier) (fst entry)))
      (indexed names) [].
Proof.
  unfold OloId.parse, fill_with. apply fold_left_ext_in. now intros acc [i k] _.
Qed.

(** ** The value map an [OloId] is built with *)

Lemma stored_truthy sep uri entry :
  uri <> OloId.SrcUndefined -> truthy (stored sep uri entry) = true.
Proof.
  destruct uri; simpl; intros H; try congruence; try apply or_else_truthy.
  unfold OloId.segment_or_undefined. destruct (nth_error _ _); auto. apply or_else_truthy.
Qed.

Lemma fold_fill sep uri (l : list (nat * string)) (o : Obj Value) :
  uri <> OloId.SrcUndefined ->
  fold_left (OloId.fill sep uri (workingUri_of uri)) l o = fill_with snd (stored sep uri) l o.
Proof.
  intros Hu. unfold fill_with. revert o.
  induction l as [|[i p] l IH]; intros o; simpl; auto.
  rewrite <- IH. f_equal. destruct uri; simpl; congruence.
Qed.

(** What a successful construction returns. *)
Lemma OloId_new_inv uri options st id st' :
  OloId.new uri options st = (Some id, st') ->
  id_separator id =
    match opt_separator options with
    | Some s => Some s
    | None => separator (OloIdSyntax.new None None st)
    end /\
  (uri = OloId.SrcUndefined -> id_syntax id = [] /\ id_uri id = []) /\
  (uri <> OloId.SrcUndefined ->
   id_uri id = fill_with snd (stored (id_separator id) uri) (indexed (id_syntax id)) []).
Proof.
  unfold OloId.new.
  replace (match uri with
           | OloId.SrcId id0 => Some (OloId.toJSON id0)
           | OloId.SrcUri u => Some u
           | _ => None
           end) with (workingUri_of uri) by (destruct uri; reflexivity).
  destruct (OloIdSyntax.getSyntaxes _ _ _) as [found st2].
  destruct found as [|syntax rest]; [discriminate|].
  destruct (OloId.forEach_throws uri syntax) eqn:Ethrow; [discriminate|].
  intros H; inversion H; subst; clear H; simpl.
  split; [reflexivity|]. split.
  - intros ->. destruct syntax; [auto|discriminate].
  - intros Hu. now rewrite fold_fill.
Qed.

Lemma OloId_new_keys uri options st id st' :
  OloId.new uri options st = (Some id, st') ->
  forall k, In k (obj_keys (id_uri id)) <-> In k (id_syntax id) /\ k <> "__proto__".
Proof.
  intros H k. destruct (OloId_new_inv _ _ _ _ _ H) as (_ & Hundef & Hfill).
  destruct uri; try (rewrite Hfill by discriminate; rewrite fill_with_keys, indexed_snd;
                     simpl; tauto).
  destruct (Hundef eq_refl) as [-> ->]. simpl. tauto.
Qed.

Lemma OloId_new_no_proto uri options st id st' :
  OloId.new uri options st = (Some id, st') -> ~ In "__proto__" (obj_keys (id_uri id)).
Proof. intros H Hin. apply (OloId_new_keys _ _ _ _ _ H) in Hin. now destruct Hin. Qed.

Lemma OloId_new_truthy uri options st id st' :
  OloId.new uri options st = (Some id, st') ->
  forall k, In k (id_syntax id) -> k <> "__proto__" ->
  exists v, obj_get k (id_uri id) = Some v /\ truthy v = true.
Proof.
  intros H k Hk Hp. pose proof (OloId_new_keys _ _ _ _ _ H k) as Hkeys.
  assert (Hown : In k (obj_keys (id_uri id))) by (apply Hkeys; auto).
  apply obj_get_in_keys in Hown. destruct Hown as [v Hv].
  exists v. split; auto.
  destruct (OloId_new_inv _ _ _ _ _ H) as (_ & Hundef & Hfill).
  assert (Hu : uri <> OloId.SrcUndefined).
  { intros ->. destruct (Hundef eq_refl) as [_ E]. rewrite E in Hv. discriminate. }
  specialize (Hfill Hu). rewrite Hfill in Hv.
  clear -Hv Hu Hp. revert Hv. unfold fill_with.
  assert (Hinit : forall w, obj_get k (@nil (string * Value)) = Some w -> truthy w = true)
    by (intros w Hw; discriminate).
  revert Hinit. generalize (@nil (string * Value)) as o.
  induction (indexed (id_syntax id)) as [|e l IH]; intros o Hinit; simpl.
  - apply Hinit.
  - apply IH. intros w.
    destruct (String.eqb_spec k (snd e)) as [->|Hne].
    + rewrite obj_get_set_same by auto. intros [= <-]. now apply stored_truthy.
    + rewrite obj_get_set_other by auto. apply Hinit.
Qed.

(** A name that reads as a string is not [__proto__]. *)
Lemma OloId_new_string_name uri options st id st' k v :
  OloId.new uri options st = (Some id, st') ->
  get (id_uri id) k = VStr v -> k <> "__proto__".
Proof.
  intros Hnew Hv ->. unfold get in Hv.
  rewrite (obj_get_none _ _ (OloId_new_no_proto _ _ _ _ _ Hnew)) in Hv. discriminate.
Qed.

(** ** Construction succeeds *)

Lemma getSyntaxes_nonempty syntax register st :
  syntaxes st <> [] -> fst (OloIdSyntax.getSyntaxes syntax register st) <> [].
Proof.
  intros Hne. unfold OloIdSyntax.getSyntaxes.
  destruct (Nat.eqb _ 0).
  - simpl. unfold OloIdSyntax.getSyntaxMatrix. destruct (syntaxes st); [congruence|discriminate].
  - destruct (find _ _); [discriminate|]. destruct register; discriminate.
Qed.

(** The constructor of [OloId] returns an instance whenever the registry
    is not empty once the instance's own [OloIdSyntax] exists; with the
    default separator the sentinel alone guarantees that. *)
Lemma OloId_new_succeeds uri options st :
  uri <> OloId.SrcUndefined ->
  syntaxes (OloIdSyntax.new None None st) <> [] ->
  exists id, fst (OloId.new uri options st) = Some id.
Proof.
  intros Hu Hne. unfold OloId.new.
  pose proof (getSyntaxes_nonempty
                (match opt_syntax options with
                 | Some s => Some s
                 | None => option_map SynUri
                             (match uri with
                              | OloId.SrcId id => Some (OloId.toJSON id)
                              | OloId.SrcUri u => Some u
                              | _ => None
                              end)
                 end) (opt_register options) _ Hne) as Hfound.
  destruct (OloIdSyntax.getSyntaxes _ _ _) as [found st2]. simpl in Hfound.
  destruct found as [|syntax rest]; [congruence|].
  destruct uri; try congruence; simpl; eauto.
Qed.

Lemma OloId_new_succeeds_default uri options st :
  uri <> OloId.SrcUndefined ->
  separator st = None \/ separator st = Some ID_TYPE_SEPARATOR ->
  exists id, fst (OloId.new uri options st) = Some id.
Proof.
  intros Hu Hsep. apply OloId_new_succeeds; auto.
  assert (Hsyn : syntaxes (OloIdSyntax.new None None st)
                 = set_add ID_TYPE_UNDEFINED (set_delete ID_TYPE_UNDEFINED (syntaxes st))).
  { unfold OloIdSyntax.new, OloIdSyntax.registerSyntaxes.
    destruct Hsep as [-> | ->]; reflexivity. }
  rewrite Hsyn. unfold set_add.
  destruct (arr_includes _ _) eqn:E.
  - intros Hnil. rewrite Hnil in E. discriminate.
  - intros Hnil. apply app_eq_nil in Hnil. destruct Hnil; discriminate.
Qed.

(** ** Comparison of one identifier *)

Lemma fold_and {A} (g : A -> bool) (l : list A) (b : bool) :
  fold_left (fun (result : bool) key => if negb result then result else g key) l b
  = b && forallb g l.
Proof.
  revert b. induction l as [|x l IH]; intros b; simpl.
  - now rewrite andb_true_r.
  - rewrite IH. destruct b; simpl; auto.
Qed.

Lemma isSame_forallb this identifier syntax :
  OloId.isSame this identifier syntax =
  forallb (fun key => match OloId.compId this identifier syntax key with
                      | Some v => value_eqb v (get (id_uri this) key)
                      | None => false
                      end) (obj_keys (id_uri this)).
Proof. unfold OloId.isSame. now rewrite fold_and. Qed.

Lemma isSame_keys this identifier syntax :
  OloId.isSame this identifier syntax = true <->
  forall k, In k (obj_keys (id_uri this)) ->
            OloId.compId this identifier syntax k = Some (get (id_uri this) k).
Proof.
  rewrite isSame_forallb, forallb_forall.
  split; intros H k Hk; specialize (H k Hk).
  - destruct (OloId.compId _ _ _ _); [|discriminate].
    apply value_eqb_eq in H. now subst.
  - rewrite H. now apply value_eqb_eq.
Qed.

Lemma isSame_syntax uri options st id st' identifier syntax :
  OloId.new uri options st = (Some id, st') ->
  OloId.isSame id identifier syntax = true <->
  (forall k, In k (id_syntax id) -> k <> "__proto__" ->
             OloId.compId id identifier syntax k = Some (get (OloId.toJSON id) k)).
Proof.
  intros Hnew. rewrite isSame_keys. unfold OloId.toJSON.
  split; intros H k.
  - intros Hk Hp. apply H. apply (OloId_new_keys _ _ _ _ _ Hnew). auto.
  - intros Hk. apply (OloId_new_keys _ _ _ _ _ Hnew) in Hk. destruct Hk. auto.
Qed.









(** Under the single name [__proto__] the assignment stores nothing, and
    the key reads as [Object.prototype]; [isSame] never reads that key. *)
Example compId_under_proto :
  OloId.compId id_type (CString "x") (Some (SynArray ["__proto__"])) "__proto__"
  = Some (VBuiltin "__proto__") /\
  OloId.compId id_type (CString "x") (Some (SynArray ["__proto__"])) "type" = Some VUndef.
Proof. split; reflexivity. Qed.

(** ** Comparison of a set *)

Lemma fold_or {A} (g : A -> bool) (l : list A) (b : bool) :
  fold_left (fun (result : bool) x => result || g x) l b = b || existsb g l.
Proof.
  revert b. induction l as [|x l IH]; intros b; simpl.
  - now rewrite orb_false_r.
  - rewrite IH. now rewrite orb_assoc.
Qed.

Lemma isSame_empty_id member other syntax :
  id_uri other = [] ->
  OloId.isSame member (CUri []) syntax = OloId.isSame member (CId other) syntax.
Proof.
  intros H. rewrite !isSame_forallb.
  induction (obj_keys (id_uri member)) as [|key l IH]; cbn [forallb]; auto.
  rewrite IH. unfold OloId.compId. now rewrite H.
Qed.

Lemma isSame_normalize member x syntax :
  OloId.isSame member (OloIdSet.normalize x) syntax
  = OloId.isSame member (comparand_view x) syntax.
Proof.
  destruct x as [s|u|other|other]; try reflexivity.
  unfold OloIdSet.normalize. simpl. destruct (id_uri other) eqn:E; auto.
  now apply isSame_empty_id.
Qed.

(** C5 (amended). A set is the same as [x] exactly when one of its members
    is the same as [x], where a comparand that is itself a set is taken as
    its merged value map. *)
Theorem set_isSame_any_member (s : OloIdSet) (x : Comparand) (syntax : option SyntaxArg) :
  OloIdSet.isSame s x syntax = true <->
  exists member, In member (obj_values (set_uri s)) /\
                 OloId.isSame member (comparand_view x) syntax = true.
Proof.
  unfold OloIdSet.isSame. rewrite fold_or. simpl. rewrite existsb_exists.
  split; intros [member [Hin Hsame]]; exists member; split; auto.
  - now rewrite <- isSame_normalize.
  - now rewrite isSame_normalize.
Qed.

(** C5 as stated fails when the comparand is a set: the set reports
    equality with a copy of itself, while none of its members does when
    handed that set directly. *)
Lemma set_isSame_member_law_fails_on_sets :
  fst (OloIdSet.new (OloIdSet.SrcString "value1/value2")
                    (mkOptions (Some (SynArray ["type1"; "type2"])) false None) fresh)
    = Some idSet1 /\
  ~ (OloIdSet.isSame idSet1 (CSet idSet1) None = true <->
     exists member, In member (obj_values (set_uri idSet1)) /\
                    OloId.isSame member (CSet idSet1) None = true).
Proof.
  split; [reflexivity|].
  intros [H _]. destruct (H eq_refl) as [member [[<-|[]] Hsame]].
  discriminate Hsame.
Qed.

(** ** Placeholders *)

(** C6. An identifier built from a value map holds the placeholder for
    every name of its syntax that the map lacks and that is not the name
    of a member of [Object.prototype]; whatever it is built from, it has
    an entry for every name of its syntax other than [__proto__], none of
    them undefined; and with the default separator the construction from
    a value map does return an identifier.  For a name that the map lacks
    and [Object.prototype] has, the read goes up the prototype chain: the
    member is stored in place of the placeholder, and for [__proto__]
    nothing is stored. *)
Theorem placeholder_for_missing_property :
  (forall m options st id st' p,
      OloId.new (OloId.SrcUri m) options st = (Some id, st') ->
      In p (id_syntax id) ->
      obj_get p m = None ->
      inherited p = VUndef ->
      obj_get p (OloId.toJSON id) = Some (VStr ID_PROP_UNDEFINED))
  /\
  (forall uri options st id st' p,
      OloId.new uri options st = (Some id, st') ->
      In p (id_syntax id) ->
      p <> "__proto__" ->
      exists v, obj_get p (OloId.toJSON id) = Some v /\ v <> VUndef)
  /\
  (forall m options st,
      separator st = None \/ separator st = Some ID_TYPE_SEPARATOR ->
      exists id, fst (OloId.new (OloId.SrcUri m) options st) = Some id)
  /\
  (forall m options st id st' p,
      OloId.new (OloId.SrcUri m) options st = (Some id, st') ->
      In p (id_syntax id) ->
      obj_get p m = None ->
      (p <> "__proto__" ->
       obj_get p (OloId.toJSON id) = Some (or_else (inherited p) (VStr ID_PROP_UNDEFINED))) /\
      (p = "__proto__" -> obj_get p (OloId.toJSON id) = None))
  /\
  (fst (OloId.new (OloId.SrcUri []) (with_syntax ["toString"]) fresh)
   = Some (mkOloId (Some "/") ["toString"] [("toString", VBuiltin "toString")]) /\
   fst (OloId.new (OloId.SrcUri [("section", VStr "config")])
                  (with_syntax ["section"; "constructor"]) fresh)
   = Some (mkOloId (Some "/") ["section"; "constructor"]
                   [("section", VStr "config"); ("constructor", VBuiltin "constructor")]) /\
   fst (OloId.new (OloId.SrcUri []) (with_syntax ["__proto__"]) fresh)
   = Some (mkOloId (Some "/") ["__proto__"] [])).
Proof.
  assert (Hread : forall m options st id st' p,
             OloId.new (OloId.SrcUri m) options st = (Some id, st') ->
             In p (id_syntax id) -> obj_get p m = None -> p <> "__proto__" ->
             obj_get p (OloId.toJSON id)
             = Some (or_else (inherited p) (VStr ID_PROP_UNDEFINED))).
  { intros m options st id st' p Hnew Hp Hmiss Hproto.
    destruct (OloId_new_inv _ _ _ _ _ Hnew) as (_ & _ & Hfill).
    unfold OloId.toJSON. rewrite Hfill by discriminate.
    apply fill_with_get; auto.
    - now rewrite indexed_snd.
    - intros [i q] _ Hq. simpl in *. subst q. unfold get. now rewrite Hmiss. }
  split; [|split; [|split; [|split]]].
  - intros m options st id st' p Hnew Hp Hmiss Hplain.
    rewrite (Hread _ _ _ _ _ _ Hnew Hp Hmiss), Hplain; [reflexivity|].
    intros ->. discriminate Hplain.
  - intros uri options st id st' p Hnew Hp Hproto.
    destruct (OloId_new_truthy _ _ _ _ _ Hnew p Hp Hproto) as [v [Hv Ht]].
    exists v. split; auto. now apply truthy_defined.
  - intros m options st Hsep. now apply OloId_new_succeeds_default.
  - intros m options st id st' p Hnew Hp Hmiss. split.
    + now apply (Hread _ _ _ _ _ _ Hnew).
    + intros ->. apply obj_get_none. now apply (OloId_new_no_proto _ _ _ _ _ Hnew).
  - repeat split; reflexivity.
Qed.

Lemma placeholder_for_missing_property_witness :
  obj_get "key"
          (OloId.toJSON (mkOloId (Some "/") ["section"; "key"]
                                 [("section", VStr "config"); ("key", VStr "UNDEFINED")]))
  = Some (VStr ID_PROP_UNDEFINED) /\
  (exists v,
      obj_get "section"
              (OloId.toJSON (mkOloId (Some "/") ["section"; "key"]
                                     [("section", VStr "config"); ("key", VStr "UNDEFINED")]))
      = Some v /\ v <> VUndef) /\
  (exists id,
      fst (OloId.new (OloId.SrcUri [("section", VStr "config")])
                     (mkOptions (Some (SynArray ["section"; "key"])) false None) fresh)
      = Some id).
Proof.
  destruct placeholder_for_missing_property as (Hmissing & Hdefined & Hbuilt & _).
  split; [|split].
  - apply (Hmissing [("section", VStr "config")]
                    (mkOptions (Some (SynArray ["section"; "key"])) false None)
                    fresh _ (mkRegistry (Some "/") ["UNDEFINED"]) "key" eq_refl).
    + simpl; auto.
    + reflexivity.
    + reflexivity.
  - apply (Hdefined (OloId.SrcUri [("section", VStr "config")])
                    (mkOptions (Some (SynArray ["section"; "key"])) false None)
                    fresh _ (mkRegistry (Some "/") ["UNDEFINED"]) "section" eq_refl).
    + simpl; auto.
    + discriminate.
  - apply Hbuilt. left; reflexivity.
Defined.

(** ** Falsy values *)

Lemma obj_get_remove_same {A} (p : string) (m : Obj A) : obj_get p (obj_remove p m) = None.
Proof.
  induction m as [|[k v] m IH]; simpl; auto.
  destruct (String.eqb_spec p k); simpl; auto.
  destruct (String.eqb_spec p k); congruence.
Qed.

Lemma obj_get_remove_other {A} (p k : string) (m : Obj A) :
  k <> p -> obj_get k (obj_remove p m) = obj_get k m.
Proof.
  intros Hne. induction m as [|[k' v] m IH]; simpl; auto.
  destruct (String.eqb_spec p k') as [<-|Hp]; simpl.
  - destruct (String.eqb_spec k p); congruence.
  - now rewrite IH.
Qed.

Lemma obj_keys_set_present {A} (p : string) (v : A) (m : Obj A) :
  In p (obj_keys m) -> obj_keys (obj_set p v m) = obj_keys m.
Proof. intros Hin. now rewrite obj_set_own, obj_update_keys. Qed.

(** Two value maps that agree once falsy values are read as missing give
    the same identifier, under a syntax that is stated or when they have
    the same keys. *)
Lemma new_uri_ext m1 m2 options st :
  opt_syntax options <> None \/ obj_keys m1 = obj_keys m2 ->
  (forall k, or_else (get m1 k) (VStr ID_PROP_UNDEFINED)
             = or_else (get m2 k) (VStr ID_PROP_UNDEFINED)) ->
  OloId.new (OloId.SrcUri m1) options st = OloId.new (OloId.SrcUri m2) options st.
Proof.
  intros Hsyn H. unfold OloId.new.
  assert (Hget : forall st1,
             OloIdSyntax.getSyntaxes
               (match opt_syntax options with
                | Some s => Some s
                | None => option_map SynUri (Some m1)
                end) (opt_register options) st1
             = OloIdSyntax.getSyntaxes
                 (match opt_syntax options with
                  | Some s => Some s
                  | None => option_map SynUri (Some m2)
                  end) (opt_register options) st1).
  { intros st1. destruct (opt_syntax options) as [syntax|]; auto.
    destruct Hsyn as [Hsyn|Hkeys]; [congruence|].
    unfold OloIdSyntax.getSyntaxes, OloIdSyntax.normSyntax. simpl. now rewrite Hkeys. }
  rewrite Hget. destruct (OloIdSyntax.getSyntaxes _ _ _) as [found st2].
  destruct found as [|names rest]; auto.
  cbn [OloId.forEach_throws]. do 3 f_equal.
  apply fold_left_ext_in. intros acc [i p] _. simpl. now rewrite H.
Qed.

Lemma segment_or_undefined_nth (l : list string) (i : nat) :
  OloId.segment_or_undefined l i = or_else (VStr (nth i l "")) (VStr ID_PROP_UNDEFINED).
Proof.
  unfold OloId.segment_or_undefined. revert l.
  induction i as [|i IH]; intros [|a l]; simpl; auto.
Qed.

(** Two strings with the same segments, empty ones read as missing, give
    the same identifier. *)
Lemma new_string_ext s1 s2 options st :
  (forall i,
      let sep := match opt_separator options with
                 | Some s => Some s
                 | None => separator (OloIdSyntax.new None None st)
                 end in
      nth i (split sep s1) "" = nth i (split sep s2) "") ->
  OloId.new (OloId.SrcString s1) options st = OloId.new (OloId.SrcString s2) options st.
Proof.
  intros H. unfold OloId.new.
  destruct (OloIdSyntax.getSyntaxes _ _ _) as [found st2].
  destruct found as [|names rest]; auto.
  cbn [OloId.forEach_throws]. do 3 f_equal.
  apply fold_left_ext_in. intros acc [i p] _. unfold OloId.fill.
  rewrite !segment_or_undefined_nth. unfold OloIdSyntax.getSeparator.
  now rewrite (H i).
Qed.

Lemma values_at id index p :
  nth_error (id_syntax id) index = Some p ->
  nth_error (OloId.values id) index = Some (get (id_uri id) p).
Proof. intros H. unfold OloId.values. now apply map_nth_error. Qed.

Lemma falsy_or_else v :
  v = VStr "" \/ v = VNum 0 -> or_else v (VStr ID_PROP_UNDEFINED) = VStr ID_PROP_UNDEFINED.
Proof. intros [-> | ->]; reflexivity. Qed.

(** C9. A value that is given but falsy, the empty string or the number
    zero in a value map or an empty segment of a string, is stored as the
    placeholder, in the value map and at its place among the values that
    [toString] joins (under [__proto__] nothing is stored).  The
    identifier built is the very one built from a source in which that
    value is undefined (under any options) or, for a name that
    [Object.prototype] does not have, is not there (under a stated
    syntax); likewise for two strings that differ only in empty segments
    against missing ones.  For a name that [Object.prototype] has, the
    empty value and the absent one give different identifiers. *)
Theorem falsy_value_reads_as_missing :
  (forall m options st id st' p,
      OloId.new (OloId.SrcUri m) options st = (Some id, st') ->
      In p (id_syntax id) ->
      p <> "__proto__" ->
      get m p = VStr "" \/ get m p = VNum 0 ->
      obj_get p (OloId.toJSON id) = Some (VStr ID_PROP_UNDEFINED) /\
      forall index, nth_error (id_syntax id) index = Some p ->
                    nth_error (OloId.values id) index = Some (VStr ID_PROP_UNDEFINED))
  /\
  (forall s options st id st' index p,
      OloId.new (OloId.SrcString s) options st = (Some id, st') ->
      nth_error (id_syntax id) index = Some p ->
      p <> "__proto__" ->
      (forall j, index < j -> nth_error (id_syntax id) j <> Some p) ->
      nth_error (split (id_separator id) s) index = Some "" ->
      obj_get p (OloId.toJSON id) = Some (VStr ID_PROP_UNDEFINED) /\
      nth_error (OloId.values id) index = Some (VStr ID_PROP_UNDEFINED))
  /\
  (forall m p syntax register sep st,
      get m p = VStr "" \/ get m p = VNum 0 ->
      inherited p = VUndef ->
      OloId.new (OloId.SrcUri m) (mkOptions (Some syntax) register sep) st
      = OloId.new (OloId.SrcUri (obj_remove p m)) (mkOptions (Some syntax) register sep) st)
  /\
  (forall m p options st,
      get m p = VStr "" \/ get m p = VNum 0 ->
      OloId.new (OloId.SrcUri m) options st
      = OloId.new (OloId.SrcUri (obj_set p VUndef m)) options st)
  /\
  (forall s1 s2 options st,
      (forall i,
          let sep := match opt_separator options with
                     | Some s => Some s
                     | None => separator (OloIdSyntax.new None None st)
                     end in
          nth i (split sep s1) "" = nth i (split sep s2) "") ->
      OloId.new (OloId.SrcString s1) options st = OloId.new (OloId.SrcString s2) options st)
  /\
  (fst (OloId.new (OloId.SrcUri [("toString", VStr "")]) (with_syntax ["toString"]) fresh)
   = Some (mkOloId (Some "/") ["toString"] [("toString", VStr "UNDEFINED")]) /\
   fst (OloId.new (OloId.SrcUri (obj_remove "toString" [("toString", VStr "")]))
                  (with_syntax ["toString"]) fresh)
   = Some (mkOloId (Some "/") ["toString"] [("toString", VBuiltin "toString")]) /\
   fst (OloId.new (OloId.SrcUri [("valueOf", VNum 0)]) (with_syntax ["valueOf"]) fresh)
   = Some (mkOloId (Some "/") ["valueOf"] [("valueOf", VStr "UNDEFINED")]) /\
   fst (OloId.new (OloId.SrcUri []) (with_syntax ["valueOf"]) fresh)
   = Some (mkOloId (Some "/") ["valueOf"] [("valueOf", VBuiltin "valueOf")])).
Proof.
  split; [|split; [|split; [|split; [|split]]]].
  - intros m options st id st' p Hnew Hp Hproto Hfalsy.
    destruct (OloId_new_inv _ _ _ _ _ Hnew) as (_ & _ & Hfill).
    assert (Hget : obj_get p (OloId.toJSON id) = Some (VStr ID_PROP_UNDEFINED)).
    { unfold OloId.toJSON. rewrite Hfill by discriminate.
      apply fill_with_get; auto.
      - now rewrite indexed_snd.
      - intros [i q] _ Hq. simpl in *. subst q. now apply falsy_or_else. }
    split; auto. intros index Hidx. rewrite (values_at _ _ _ Hidx).
    unfold get. unfold OloId.toJSON in Hget. now rewrite Hget.
  - intros s options st id st' index p Hnew Hidx Hproto Hlast Hseg.
    destruct (OloId_new_inv _ _ _ _ _ Hnew) as (_ & _ & Hfill).
    assert (Hget : obj_get p (OloId.toJSON id) = Some (VStr ID_PROP_UNDEFINED)).
    { unfold OloId.toJSON. rewrite Hfill by discriminate.
      rewrite (fill_with_at _ _ index p Hidx Hproto Hlast). simpl.
      unfold OloId.segment_or_undefined. now rewrite Hseg. }
    split; auto. rewrite (values_at _ _ _ Hidx).
    unfold get. unfold OloId.toJSON in Hget. now rewrite Hget.
  - intros m p syntax register sep st Hfalsy Hplain. apply new_uri_ext.
    + left. discriminate.
    + intros k. destruct (String.eqb_spec k p) as [->|Hne].
      * rewrite (falsy_or_else _ Hfalsy). unfold get.
        now rewrite obj_get_remove_same, Hplain.
      * unfold get. now rewrite obj_get_remove_other.
  - intros m p options st Hfalsy.
    assert (Hown : In p (obj_keys m)).
    { apply obj_get_in_keys. unfold get in Hfalsy.
      destruct (obj_get p m) as [v|]; [eauto|].
      unfold inherited in Hfalsy. destruct (existsb _ _); destruct Hfalsy; discriminate. }
    apply new_uri_ext.
    + right. symmetry. now apply obj_keys_set_present.
    + intros k. destruct (String.eqb_spec k p) as [->|Hne].
      * rewrite (falsy_or_else _ Hfalsy). unfold get. now rewrite obj_get_set_same by auto.
      * unfold get. now rewrite obj_get_set_other.
  - intros s1 s2 options st H. now apply new_string_ext.
  - repeat split; reflexivity.
Qed.

Lemma falsy_value_reads_as_missing_witness :
  obj_get "key"
          (OloId.toJSON (mkOloId (Some "/") ["section"; "key"]
                                 [("section", VStr "config"); ("key", VStr "UNDEFINED")]))
  = Some (VStr ID_PROP_UNDEFINED) /\
  obj_get "key"
          (OloId.toJSON (mkOloId (Some "/") ["section"; "key"]
                                 [("section", VStr "config"); ("key", VStr "UNDEFINED")]))
  = Some (VStr ID_PROP_UNDEFINED) /\
  OloId.new (OloId.SrcUri [("section", VStr "config"); ("key", VNum 0)])
            (mkOptions (Some (SynString "section/key")) false None) fresh
  = OloId.new (OloId.SrcUri (obj_remove "key" [("section", VStr "config"); ("key", VNum 0)]))
              (mkOptions (Some (SynString "section/key")) false None) fresh /\
  OloId.new (OloId.SrcUri [("section", VStr "config"); ("key", VStr "")]) no_options fresh
  = OloId.new (OloId.SrcUri (obj_set "key" VUndef [("section", VStr "config"); ("key", VStr "")]))
              no_options fresh /\
  OloId.new (OloId.SrcString "config/") (mkOptions (Some (SynString "section/key")) false None) fresh
  = OloId.new (OloId.SrcString "config") (mkOptions (Some (SynString "section/key")) false None) fresh.
Proof.
  destruct falsy_value_reads_as_missing as (Hmap & Hstr & Hsame & Hundef & Hsegs & _).
  split; [|split; [|split; [|split]]].
  - apply (Hmap [("section", VStr "config"); ("key", VStr "")]
                (mkOptions (Some (SynArray ["section"; "key"])) false None)
                fresh _ (mkRegistry (Some "/") ["UNDEFINED"]) "key" eq_refl).
    + simpl; auto.
    + discriminate.
    + left; reflexivity.
  - apply (Hstr "config/"
                (mkOptions (Some (SynArray ["section"; "key"])) false None)
                fresh _ (mkRegistry (Some "/") ["UNDEFINED"]) 1 "key" eq_refl).
    + reflexivity.
    + discriminate.
    + intros [|[|[|j]]] Hj; try lia; discriminate.
    + reflexivity.
  - apply Hsame; [right; reflexivity|reflexivity].
  - apply Hundef. left; reflexivity.
  - apply Hsegs. intros [|[|[|i]]]; reflexivity.
Defined.

(** ** The separator *)

Section Separator.

Lemma registerSyntaxes_separator l st :
  separator (snd (OloIdSyntax.registerSyntaxes l st)) = separator st.
Proof. reflexivity. Qed.

Lemma getSyntaxes_separator syntax register st :
  separator (snd (OloIdSyntax.getSyntaxes syntax register st)) = separator st.
Proof.
  unfold OloIdSyntax.getSyntaxes.
  destruct (Nat.eqb _ 0); auto. destruct (find _ _); auto. destruct register; auto.
Qed.

Lemma new_syntax_separator l seperator st :
  separator (OloIdSyntax.new l seperator st) =
  Some (match separator st with
        | Some s => s
        | None => match seperator with Some s => s | None => ID_TYPE_SEPARATOR end
        end).
Proof. unfold OloIdSyntax.new. simpl. destruct (separator st); auto. Qed.

Lemma new_id_separator uri options st :
  separator (snd (OloId.new uri options st)) = separator (OloIdSyntax.new None None st).
Proof.
  unfold OloId.new.
  match goal with |- context [OloIdSyntax.getSyntaxes ?a ?b ?c] =>
    pose proof (getSyntaxes_separator a b c) as H;
    destruct (OloIdSyntax.getSyntaxes a b c) as [found st2] end.
  simpl in H. destruct found; [|destruct (OloId.forEach_throws _ _)]; simpl; auto.
Qed.

Variable s : string.

Lemma kept_new_syntax l seperator st : kept s st -> kept s (OloIdSyntax.new l seperator st).
Proof. unfold kept. intros H. now rewrite new_syntax_separator, H. Qed.

Lemma kept_new_id uri options st : kept s st -> kept s (snd (OloId.new uri options st)).
Proof. intros H. unfold kept. rewrite new_id_separator. now apply kept_new_syntax. Qed.

Lemma kept_getSyntaxes syntax register st :
  kept s st -> kept s (snd (OloIdSyntax.getSyntaxes syntax register st)).
Proof. unfold kept. now rewrite getSyntaxes_separator. Qed.

Lemma kept_fold {A B} (f : B * Registry -> A -> B * Registry) (l : list A) (acc : B * Registry) :
  (forall acc x, kept s (snd acc) -> kept s (snd (f acc x))) ->
  kept s (snd acc) -> kept s (snd (fold_left f l acc)).
Proof. intros Hf. revert acc. induction l; simpl; auto. Qed.

Lemma kept_resolve_keys register keys st :
  kept s st -> kept s (snd (OloIdSet.resolve_keys register keys st)).
Proof.
  intros H. unfold OloIdSet.resolve_keys. apply kept_fold; auto.
  intros acc x Hacc.
  pose proof (kept_getSyntaxes (Some (SynString x)) register _ Hacc) as Hk.
  destruct (OloIdSyntax.getSyntaxes _ _ _); auto.
Qed.

Lemma kept_adopt ids options acc syntaxItem :
  kept s (snd acc) -> kept s (snd (OloIdSet.adopt ids options acc syntaxItem)).
Proof.
  intros H. unfold OloIdSet.adopt. destruct (fst acc); auto.
  match goal with |- context [OloId.new ?a ?b ?c] =>
    pose proof (kept_new_id a b c H) as Hk; destruct (OloId.new a b c) as [[id|] st'] end; auto.
Qed.

Lemma kept_interpret workingUri sep acc syntaxItem :
  kept s (snd acc) -> kept s (snd (OloIdSet.interpret workingUri sep acc syntaxItem)).
Proof.
  intros H. unfold OloIdSet.interpret. destruct (fst acc); auto.
  match goal with |- context [OloId.new ?a ?b ?c] =>
    pose proof (kept_new_id a b c H) as Hk; destruct (OloId.new a b c) as [[id|] st'] end; auto.
Qed.

Lemma kept_new_set_from uri options st :
  kept s (OloIdSyntax.new None None st) -> kept s (snd (OloIdSet.new uri options st)).
Proof.
  intros H1. unfold OloIdSet.new.
  set (st1 := OloIdSyntax.new None None st) in *. clearbody st1.
  assert (Hmap : forall ids,
             kept s (snd (let (resolved, st2) :=
                          OloIdSet.resolve_keys (opt_register options) (obj_keys ids) st1 in
                        let (built, st3) :=
                          fold_left (OloIdSet.adopt ids options) resolved (Some [], st2) in
                        (option_map mkOloIdSet built, st3)))).
  { intros ids.
    pose proof (kept_resolve_keys (opt_register options) (obj_keys ids) st1 H1) as H2.
    destruct (OloIdSet.resolve_keys _ _ _) as [resolved st2].
    pose proof (kept_fold (OloIdSet.adopt ids options) resolved (Some [], st2)
                          (kept_adopt ids options) H2) as H3.
    destruct (fold_left _ _ _) as [built st3]. exact H3. }
  assert (Huri : forall workingUri,
             kept s (snd (let (found, st2) :=
                          OloIdSyntax.getSyntaxes (Some (SynUri workingUri))
                                                  (opt_register options) st1 in
                        let (built, st3) :=
                          fold_left (OloIdSet.interpret workingUri (opt_separator options))
                                    found (Some [], st2) in
                        (option_map mkOloIdSet built, st3)))).
  { intros workingUri.
    pose proof (kept_getSyntaxes (Some (SynUri workingUri)) (opt_register options) st1 H1) as H2.
    destruct (OloIdSyntax.getSyntaxes _ _ _) as [found st2].
    pose proof (kept_fold (OloIdSet.interpret workingUri (opt_separator options)) found
                          (Some [], st2)
                          (kept_interpret workingUri (opt_separator options)) H2) as H3.
    destruct (fold_left _ _ _) as [built st3]. exact H3. }
  destruct uri as [str|[|kv u]|ids|other].
  - pose proof (kept_new_id (OloId.SrcString str) options st1 H1) as H2.
    destruct (OloId.new _ _ _) as [[id|] st2]; exact H2.
  - apply (Hmap []).
  - apply Huri.
  - apply Hmap.
  - apply Huri.
Qed.

Lemma kept_new_set uri options st : kept s st -> kept s (snd (OloIdSet.new uri options st)).
Proof. intros H. now apply kept_new_set_from, kept_new_syntax. Qed.

Lemma kept_step op st : kept s st -> kept s (step st op).
Proof.
  intros H. destruct op as [l sp|[l|]|syntax register|uri options|uri options];
    cbn [step OloIdSyntax.setSyntaxes].
  - now apply kept_new_syntax.
  - unfold kept. now rewrite registerSyntaxes_separator.
  - now apply kept_getSyntaxes.
  - now apply kept_getSyntaxes.
  - now apply kept_new_id.
  - now apply kept_new_set.
Qed.

Lemma kept_run ops st : kept s st -> kept s (run ops st).
Proof. unfold run. revert st. induction ops; simpl; auto using kept_step. Qed.

End Separator.

Lemma first_construction_installs op st :
  is_constructor op = true -> separator st = None -> separator (step st op) = Some (installed op).
Proof.
  intros Hc Hnone. destruct op as [l sp| | |uri options|uri options]; try discriminate;
    cbn [step installed].
  - rewrite new_syntax_separator, Hnone. now destruct sp.
  - rewrite new_id_separator, new_syntax_separator, Hnone. reflexivity.
  - apply kept_new_set_from. unfold kept. now rewrite new_syntax_separator, Hnone.
Qed.

(** C8. The first construction installs the global separator; whatever is
    constructed or registered afterwards, with whatever separator option,
    leaves it as it is, and [getSeparator] keeps returning it. *)
Theorem separator_is_set_once :
  (forall op st,
      is_constructor op = true -> separator st = None ->
      OloIdSyntax.getSeparator (step st op) = Some (installed op))
  /\
  (forall ops st s,
      OloIdSyntax.getSeparator st = Some s ->
      OloIdSyntax.getSeparator (run ops st) = Some s).
Proof.
  split.
  - intros op st. apply first_construction_installs.
  - intros ops st s. apply kept_run.
Qed.

Lemma separator_is_set_once_witness :
  OloIdSyntax.getSeparator (step fresh (NewOloIdSyntax (Some []) (Some "-"))) = Some "-" /\
  OloIdSyntax.getSeparator
    (run [NewOloIdSyntax None (Some "@");
          NewOloId (OloId.SrcString "a@b")
                   (mkOptions (Some (SynArray ["user"; "host"])) true (Some "@"));
          NewOloIdSet (OloIdSet.SrcUri [("user", VStr "a"); ("host", VStr "b")])
                      (mkOptions None true (Some "+"))]
         (step fresh (NewOloIdSyntax (Some []) (Some "-"))))
  = Some "-".
Proof.
  split.
  - apply (proj1 separator_is_set_once); reflexivity.
  - apply (proj2 separator_is_set_once). reflexivity.
Defined.

(** ** Splitting a joined string *)

Section SplitJoin.

Variable c : ascii.

Lemma prefix_sep (a : ascii) (s : string) :
  prefix (String c "") (String a s) = Ascii.eqb c a.
Proof.
  simpl. destruct (ascii_dec c a) as [->|Hne].
  - rewrite Ascii.eqb_refl. now destruct s.
  - symmetry. now apply Ascii.eqb_neq.
Qed.

Lemma includes_cons (a : ascii) (s : string) :
  includes (String c "") (String a s) = Ascii.eqb c a || includes (String c "") s.
Proof. cbn [includes]. now rewrite prefix_sep. Qed.

Lemma append_assoc_char (cur : string) (a : ascii) (s : string) :
  ((cur ++ String a "") ++ s)%string = (cur ++ String a s)%string.
Proof. induction cur as [|b cur IH]; simpl; [|rewrite IH]; auto. Qed.

Lemma append_empty_r (s : string) : (s ++ "")%string = s.
Proof. induction s as [|a s IH]; simpl; [|rewrite IH]; auto. Qed.

(** A value without the separator is read up to its end in one piece. *)
Lemma split_from_last (v cur : string) :
  includes (String c "") v = false ->
  split_from (String c "") 0 cur v = [(cur ++ v)%string].
Proof.
  revert cur. induction v as [|a v IH]; intros cur H.
  - simpl. now rewrite append_empty_r.
  - rewrite includes_cons in H. apply orb_false_elim in H. destruct H as [Ha Hv].
    cbn [split_from]. rewrite prefix_sep, Ha, IH by auto.
    now rewrite append_assoc_char.
Qed.

(** ... and up to the separator that follows it. *)
Lemma split_from_next (v cur rest : string) :
  includes (String c "") v = false ->
  split_from (String c "") 0 cur (v ++ String c rest)
  = (cur ++ v)%string :: split_from (String c "") 0 "" rest.
Proof.
  revert cur. induction v as [|a v IH]; intros cur H.
  - cbn [append split_from]. rewrite prefix_sep, Ascii.eqb_refl.
    now rewrite append_empty_r.
  - rewrite includes_cons in H. apply orb_false_elim in H. destruct H as [Ha Hv].
    cbn [append split_from]. rewrite prefix_sep, Ha, IH by auto.
    now rewrite append_assoc_char.
Qed.

Lemma split_join (l : list string) :
  l <> [] ->
  (forall v, In v l -> includes (String c "") v = false) ->
  split (Some (String c "")) (join (Some (String c "")) l) = l.
Proof.
  intros Hne Hfree. unfold split, join, split_str.
  destruct l as [|v l]; [congruence|]. clear Hne.
  revert v Hfree. induction l as [|w l IH]; intros v Hfree.
  - simpl. rewrite split_from_last by (apply Hfree; simpl; auto). reflexivity.
  - change (String.concat (String c "") (v :: w :: l))
      with (v ++ String c (String.concat (String c "") (w :: l)))%string.
    rewrite split_from_next by (apply Hfree; simpl; auto).
    rewrite IH by (intros u Hu; apply Hfree; simpl in *; tauto).
    reflexivity.
Qed.

End SplitJoin.

(** ** Objects built by the same sequence of assignments *)

Section Rebuild.

Context {A : Type}.

Lemma obj_ext (o1 o2 : Obj A) :
  NoDup (obj_keys o1) ->
  obj_keys o1 = obj_keys o2 ->
  (forall k, In k (obj_keys o1) -> obj_get k o1 = obj_get k o2) ->
  o1 = o2.
Proof.
  revert o2. induction o1 as [|[k v] o1 IH]; intros [|[k2 v2] o2] Hnd Hkeys Hget;
    try discriminate; auto.
  simpl in Hkeys. injection Hkeys as Hk Hkeys. subst k2.
  inversion Hnd as [|? ? Hnotin Hnd']; subst.
  assert (v = v2).
  { specialize (Hget k (or_introl eq_refl)). simpl in Hget.
    rewrite String.eqb_refl in Hget. congruence. }
  subst v2. f_equal. apply IH; auto.
  intros q Hq. specialize (Hget q (or_intror Hq)). simpl in Hget.
  destruct (String.eqb_spec q k) as [Heq|Hne]; [|exact Hget].
  subst q. contradiction.
Qed.

Lemma insert_index_shape (n : N) (k : string) (v w : A) (o1 o2 : Obj A) :
  obj_keys o1 = obj_keys o2 ->
  obj_keys (insert_index n k v o1) = obj_keys (insert_index n k w o2).
Proof.
  unfold obj_keys.
  revert o2. induction o1 as [|[k1 v1] o1 IH]; intros [|[k2 v2] o2] H; try discriminate; auto.
  simpl in H. injection H as <- H. simpl.
  destruct (array_index k1) as [n1|]; [destruct (N.ltb n1 n)|]; simpl; f_equal; auto;
    now f_equal.
Qed.

Lemma obj_keys_set_shape (k : string) (v w : A) (o1 o2 : Obj A) :
  obj_keys o1 = obj_keys o2 ->
  obj_keys (obj_set k v o1) = obj_keys (obj_set k w o2).
Proof.
  intros H. destruct (in_dec string_dec k (obj_keys o1)) as [Hown|Hnot].
  - rewrite !obj_set_own, !obj_update_keys by congruence. exact H.
  - assert (Hnot2 : ~ In k (obj_keys o2)) by congruence.
    destruct (string_dec k "__proto__") as [->|Hp].
    + now rewrite !obj_set_proto.
    + destruct (array_index k) as [n|] eqn:E.
      * rewrite !(obj_set_index n) by auto. now apply insert_index_shape.
      * rewrite !obj_set_name by auto. unfold obj_keys in *.
        rewrite !map_app. simpl. now rewrite H.
Qed.

Lemma fill_with_shape {E} (key : E -> string) (f g : E -> A) (l : list E) (o1 o2 : Obj A) :
  obj_keys o1 = obj_keys o2 ->
  obj_keys (fill_with key f l o1) = obj_keys (fill_with key g l o2).
Proof.
  unfold fill_with. revert o1 o2. induction l as [|e l IH]; intros o1 o2 H; simpl; auto.
  apply IH. now apply obj_keys_set_shape.
Qed.

Lemma fill_with_nodup {E} (key : E -> string) (f : E -> A) (l : list E) (o : Obj A) :
  NoDup (obj_keys o) -> NoDup (obj_keys (fill_with key f l o)).
Proof.
  unfold fill_with. revert o. induction l as [|e l IH]; intros o H; simpl; auto.
  apply IH. now apply obj_set_nodup.
Qed.

(** Running the assignments again, each with the value the object ended
    up holding for its key, gives the object back. *)
Lemma fill_with_again {E} (key : E -> string) (f g : E -> A) (l : list E) :
  (forall e, In e l -> obj_get (key e) (fill_with key f l []) = Some (g e)) ->
  fill_with key g l [] = fill_with key f l [].
Proof.
  intros Hg. apply obj_ext.
  - apply fill_with_nodup. constructor.
  - now apply fill_with_shape.
  - intros k Hk. apply fill_with_keys in Hk. destruct Hk as [[Hk Hp]|[]].
    apply in_map_iff in Hk. destruct Hk as [e [<- He]].
    rewrite (Hg e He). apply fill_with_get; auto.
    + now apply in_map.
    + intros e' He' Hkey. pose proof (Hg e' He') as Hg'. rewrite Hkey in Hg'.
      rewrite (Hg e He) in Hg'. congruence.
Qed.

End Rebuild.

(** ** Round trip through [toString] *)

(** The round trip for any second construction that resolves to the syntax
    and separator of the first. *)
Lemma roundtrip_same_syntax (c : ascii) uri1 options1 st id1 st1 options2 st2 id2 st2' :
  OloId.new uri1 options1 st = (Some id1, st1) ->
  id_separator id1 = Some (String c "") ->
  (forall k, In k (id_syntax id1) ->
             exists v, get (OloId.toJSON id1) k = VStr v /\ includes (String c "") v = false) ->
  OloId.new (OloId.SrcString (OloId.toString id1 None)) options2 st2 = (Some id2, st2') ->
  id_syntax id2 = id_syntax id1 ->
  id_separator id2 = id_separator id1 ->
  OloId.toJSON id2 = OloId.toJSON id1.
Proof.
  intros Hnew1 Hsep Hvals Hnew2 Hsyn Hsep2. unfold OloId.toJSON in *.
  destruct (OloId_new_inv _ _ _ _ _ Hnew2) as (_ & _ & Hfill2).
  specialize (Hfill2 ltac:(discriminate)). rewrite Hsyn, Hsep2 in Hfill2.
  destruct (OloId_new_inv _ _ _ _ _ Hnew1) as (_ & Hundef & Hfill1).
  destruct (id_syntax id1) as [|k0 names] eqn:Enames.
  { rewrite Hfill2. destruct uri1; try (rewrite Hfill1 by discriminate; reflexivity).
    now destruct (Hundef eq_refl) as [_ ->]. }
  assert (Hu : uri1 <> OloId.SrcUndefined).
  { intros ->. destruct (Hundef eq_refl) as [E _]. discriminate. }
  specialize (Hfill1 Hu). rewrite Hfill2.
  etransitivity; [|symmetry; exact Hfill1].
  apply fill_with_again. intros [i k] Hin. rewrite <- Hfill1.
  apply indexed_in in Hin. cbn [fst snd stored].
  assert (Hk : In k (k0 :: names)) by (eapply nth_error_In; eauto).
  destruct (Hvals k Hk) as [v [Hv Hfree]].
  rewrite <- Enames in Hk.
  pose proof (OloId_new_string_name _ _ _ _ _ _ _ Hnew1 Hv) as Hproto.
  destruct (OloId_new_truthy _ _ _ _ _ Hnew1 k Hk Hproto) as [w [Hw Ht]].
  assert (w = VStr v) by (unfold get in Hv; rewrite Hw in Hv; exact Hv). subst w.
  rewrite Hw. f_equal.
  unfold OloId.toString. rewrite Hsep.
  rewrite split_join.
  - rewrite <- Enames in Hin. apply values_at in Hin.
    apply (map_nth_error to_string) in Hin.
    unfold OloId.segment_or_undefined. rewrite Hin, Hv. simpl.
    unfold or_else. now rewrite Ht.
  - unfold OloId.values. rewrite Enames. discriminate.
  - intros u Hu'. unfold OloId.values in Hu'. apply in_map_iff in Hu'.
    destruct Hu' as [x [<- Hx]]. apply in_map_iff in Hx. destruct Hx as [k' [<- Hk']].
    rewrite Enames in Hk'. destruct (Hvals k' Hk') as [v' [Hv' Hfree']].
    now rewrite Hv'.
Qed.

(** *** Resolution without registration is repeatable *)

Lemma set_delete_idem x l : set_delete x (set_delete x l) = set_delete x l.
Proof.
  unfold set_delete. induction l as [|y l IH]; simpl; auto.
  destruct (negb (String.eqb x y)) eqn:E; simpl; [rewrite E, IH|]; auto.
Qed.

Lemma set_add_again x u l :
  set_add x (set_delete u (set_add x (set_delete u l))) = set_add x (set_delete u l).
Proof.
  unfold set_add at 2. destruct (arr_includes x (set_delete u l)) eqn:E.
  - rewrite set_delete_idem. unfold set_add. now rewrite E.
  - unfold set_delete at 1. rewrite filter_app. fold (set_delete u (set_delete u l)).
    rewrite set_delete_idem. simpl. unfold set_add.
    destruct (String.eqb_spec u x) as [->|Hne]; simpl.
    + rewrite app_nil_r. now rewrite E.
    + rewrite E. unfold arr_includes. rewrite existsb_app. simpl.
      now rewrite String.eqb_refl, orb_true_r.
Qed.

Lemma new_default_unfold st :
  OloIdSyntax.new None None st =
  let sp := match separator st with Some s => s | None => ID_TYPE_SEPARATOR end in
  let names := OloIdSyntax.normSyntax (mkRegistry (Some sp) []) (Some (SynString ID_TYPE_UNDEFINED)) in
  mkRegistry (Some sp)
             (if Nat.ltb 0 (List.length names)
              then set_add (join (Some sp) names) (set_delete ID_TYPE_UNDEFINED (syntaxes st))
              else syntaxes st).
Proof.
  unfold OloIdSyntax.new, OloIdSyntax.registerSyntaxes, OloIdSyntax.register_one,
    OloIdSyntax.normSyntax.
  cbn [fold_left snd separator syntaxes]. now destruct (separator st).
Qed.

Lemma new_default_again st :
  OloIdSyntax.new None None (OloIdSyntax.new None None st) = OloIdSyntax.new None None st.
Proof.
  rewrite (new_default_unfold (OloIdSyntax.new None None st)).
  rewrite (new_default_unfold st). cbv zeta. cbn [separator syntaxes].
  destruct (Nat.ltb 0 _); [|reflexivity].
  now rewrite set_add_again.
Qed.

Lemma getSyntaxes_no_register syntax st :
  snd (OloIdSyntax.getSyntaxes syntax false st) = st.
Proof.
  unfold OloIdSyntax.getSyntaxes. destruct (Nat.eqb _ 0); auto. destruct (find _ _); auto.
Qed.

(** Without registration a successful construction leaves the registry
    as the instance's own [OloIdSyntax] made it, and a construction with
    the same options resolves to the same syntax and separator. *)
Lemma new_no_register_again uri syntax sep st id st1 s :
  OloId.new uri (mkOptions syntax false sep) st = (Some id, st1) ->
  (syntax = None -> uri = OloId.SrcString s \/ uri = OloId.SrcUndefined) ->
  exists id2,
    OloId.new (OloId.SrcString s) (mkOptions syntax false sep) st1 = (Some id2, st1) /\
    id_syntax id2 = id_syntax id /\ id_separator id2 = id_separator id.
Proof.
  unfold OloId.new. cbn [opt_syntax opt_register opt_separator].
  intros Hnew Hsyn.
  assert (Harg :
            match syntax with
            | Some s0 => Some s0
            | None => option_map SynUri
                        match uri with
                        | OloId.SrcUri u => Some u
                        | OloId.SrcId id0 => Some (OloId.toJSON id0)
                        | _ => None
                        end
            end = match syntax with Some s0 => Some s0 | None => option_map SynUri None end).
  { destruct syntax; auto. destruct (Hsyn eq_refl) as [-> | ->]; reflexivity. }
  rewrite Harg in Hnew. clear Harg.
  match type of Hnew with context [OloIdSyntax.getSyntaxes ?a false ?b] =>
    pose proof (getSyntaxes_no_register a b) as Hst;
    destruct (OloIdSyntax.getSyntaxes a false b) as [found st2] eqn:Eget end.
  simpl in Hst. subst st2.
  destruct found as [|names rest]; [discriminate|].
  destruct (OloId.forEach_throws uri names); [discriminate|].
  injection Hnew as <- <-.
  rewrite new_default_again. rewrite Eget. cbn [OloId.forEach_throws].
  eexists. split; [reflexivity|]. split; reflexivity.
Qed.

(** C7 (amended). When the separator is a single character and every
    stored value is a string without it, building an identifier from
    [toString] gives back the value map: for any second construction that
    resolves to the same syntax and separator, and in particular for one
    with the same stated syntax and options when nothing is registered. *)
Theorem toString_roundtrip :
  (forall (c : ascii) uri1 options1 st id1 st1 options2 st2 id2 st2',
      OloId.new uri1 options1 st = (Some id1, st1) ->
      id_separator id1 = Some (String c "") ->
      (forall k, In k (id_syntax id1) ->
                 exists v, get (OloId.toJSON id1) k = VStr v /\ includes (String c "") v = false) ->
      OloId.new (OloId.SrcString (OloId.toString id1 None)) options2 st2 = (Some id2, st2') ->
      id_syntax id2 = id_syntax id1 ->
      id_separator id2 = id_separator id1 ->
      OloId.toJSON id2 = OloId.toJSON id1)
  /\
  (forall (c : ascii) uri syntax sep st id1 st1,
      OloId.new uri (mkOptions (Some syntax) false sep) st = (Some id1, st1) ->
      id_separator id1 = Some (String c "") ->
      (forall k, In k (id_syntax id1) ->
                 exists v, get (OloId.toJSON id1) k = VStr v /\ includes (String c "") v = false) ->
      exists id2,
        OloId.new (OloId.SrcString (OloId.toString id1 None)) (mkOptions (Some syntax) false sep) st1
        = (Some id2, st1) /\
        OloId.toJSON id2 = OloId.toJSON id1).
Proof.
  split.
  - intros. eapply roundtrip_same_syntax; eauto.
  - intros c uri syntax sep st id1 st1 Hnew Hsep Hvals.
    destruct (new_no_register_again uri (Some syntax) sep st id1 st1
                                    (OloId.toString id1 None) Hnew)
      as [id2 (Hnew2 & Hsyn & Hsep2)]; [discriminate|].
    exists id2. split; auto.
    eapply roundtrip_same_syntax; eauto.
Qed.

Lemma toString_roundtrip_witness :
  exists id2,
    OloId.new (OloId.SrcString (OloId.toString id_user_123 None))
              (mkOptions (Some (SynArray ["type"; "id"])) false None)
              (mkRegistry (Some "/") ["UNDEFINED"])
    = (Some id2, mkRegistry (Some "/") ["UNDEFINED"]) /\
    OloId.toJSON id2 = OloId.toJSON id_user_123.
Proof.
  apply (proj2 toString_roundtrip "/"%char
               (OloId.SrcUri [("type", VStr "user"); ("id", VStr "123")])
               (SynArray ["type"; "id"]) None fresh id_user_123
               (mkRegistry (Some "/") ["UNDEFINED"]) eq_refl eq_refl).
  intros k [<-|[<-|[]]]; eexists; split; reflexivity.
Defined.

(** C7 as stated fails in two ways.  A number is stored as a number and
    comes back as a string; and with a separator of two characters the
    joined string can hold the separator where no value does. *)
Lemma toString_roundtrip_fails :
  (let options := mkOptions (Some (SynArray ["type"; "id"])) false None in
   let id1 := mkOloId (Some "/") ["type"; "id"] [("type", VStr "user"); ("id", VNum 123)] in
   let id2 := mkOloId (Some "/") ["type"; "id"] [("type", VStr "user"); ("id", VStr "123")] in
   let st1 := mkRegistry (Some "/") ["UNDEFINED"] in
   OloId.new (OloId.SrcUri [("type", VStr "user"); ("id", VNum 123)]) options fresh
   = (Some id1, st1) /\
   forallb (fun v => negb (includes "/" (to_string v))) (OloId.values id1) = true /\
   OloId.toString id1 None = "user/123" /\
   OloId.new (OloId.SrcString (OloId.toString id1 None)) options st1 = (Some id2, st1) /\
   OloId.toJSON id2 <> OloId.toJSON id1)
  /\
  (let options := mkOptions (Some (SynArray ["x"; "y"])) false (Some "aa") in
   let id1 := mkOloId (Some "aa") ["x"; "y"] [("x", VStr "a"); ("y", VStr "b")] in
   let id2 := mkOloId (Some "aa") ["x"; "y"] [("x", VStr "UNDEFINED"); ("y", VStr "ab")] in
   let st1 := mkRegistry (Some "/") ["UNDEFINED"] in
   OloId.new (OloId.SrcUri [("x", VStr "a"); ("y", VStr "b")]) options fresh
   = (Some id1, st1) /\
   forallb (fun v => negb (includes "aa" (to_string v))) (OloId.values id1) = true /\
   OloId.toString id1 None = "aaab" /\
   OloId.new (OloId.SrcString (OloId.toString id1 None)) options st1 = (Some id2, st1) /\
   OloId.toJSON id2 <> OloId.toJSON id1).
Proof.
  split; cbv zeta; repeat split; try reflexivity; discriminate.
Qed.

(** ** Resolution of a registered syntax *)

Lemma arr_includes_In (x : string) (l : list string) : arr_includes x l = true <-> In x l.
Proof.
  unfold arr_includes. rewrite existsb_exists. split.
  - intros [y [Hy Heq]]. apply String.eqb_eq in Heq. now subst.
  - intros H. exists x. split; auto. apply String.eqb_refl.
Qed.

Lemma matches_spec (inputSyntax testSyntax : list string) :
  matches inputSyntax testSyntax = true <->
  incl testSyntax inputSyntax /\ List.length testSyntax = List.length inputSyntax.
Proof.
  unfold matches. rewrite andb_true_iff, !Nat.eqb_eq, length_zero_iff_nil.
  split; intros [Hsub Hlen]; split; auto.
  - intros x Hx. destruct (arr_includes x inputSyntax) eqn:E; [now apply arr_includes_In|].
    assert (Hin : In x (filter (fun y => negb (arr_includes y inputSyntax)) testSyntax))
      by (apply filter_In; rewrite E; auto).
    rewrite Hsub in Hin. destruct Hin.
  - destruct (filter _ testSyntax) as [|x l] eqn:E; auto.
    assert (Hin : In x (filter (fun y => negb (arr_includes y inputSyntax)) testSyntax))
      by (rewrite E; simpl; auto).
    apply filter_In in Hin. destruct Hin as [Hx Hneg].
    apply Hsub, arr_includes_In in Hx. rewrite Hx in Hneg. discriminate.
Qed.

Lemma find_app_skip {A} (f : A -> bool) (l1 l2 : list A) :
  (forall x, In x l1 -> f x = false) -> find f (l1 ++ l2) = find f l2.
Proof.
  induction l1 as [|x l1 IH]; intros H; simpl; auto.
  rewrite (H x) by (simpl; auto). apply IH. intros y Hy. apply H. simpl; auto.
Qed.

(** Whatever the order in which the names of a registered syntax are
    asked for, [getSyntaxes] answers with the order under which they were
    registered first, and registers nothing. *)
Lemma resolve_first_registered (c : ascii) st pre post (S S' : list string) register :
  separator st = Some (String c "") ->
  syntaxes st = (pre ++ join (Some (String c "")) S :: post)%list ->
  S <> [] -> NoDup S ->
  (forall n, In n S -> n <> "" /\ includes (String c "") n = false) ->
  Permutation S S' ->
  (forall e, In e pre ->
             NoDup (split (Some (String c "")) e) /\
             ~ Permutation (split (Some (String c "")) e) S) ->
  OloIdSyntax.getSyntaxes (Some (SynArray S')) register st = ([S], st).
Proof.
  intros Hsep Hsyn Hne Hnd Hnames Hperm Hpre.
  unfold OloIdSyntax.getSyntaxes.
  assert (Hnorm : OloIdSyntax.normSyntax st (Some (SynArray S')) = S').
  { unfold OloIdSyntax.normSyntax. apply forallb_filter_id, forallb_forall.
    intros n Hn. apply Permutation_sym in Hperm.
    destruct (Hnames n (Permutation_in _ Hperm Hn)) as [Hn0 _].
    destruct (String.eqb_spec n ""); auto. }
  rewrite Hnorm.
  assert (Hlen : List.length S = List.length S') by now apply Permutation_length.
  destruct (Nat.eqb_spec (List.length S') 0) as [H0|_].
  { destruct S; [congruence|]. simpl in Hlen. lia. }
  change (fun syntax : list string =>
            Nat.eqb (List.length (filter (fun syntaxItem => negb (arr_includes syntaxItem S'))
                                         syntax)) 0
            && Nat.eqb (List.length syntax) (List.length S'))
    with (matches S').
  unfold OloIdSyntax.getSyntaxMatrix. rewrite Hsyn, Hsep, map_app. cbn [map].
  rewrite split_join by (auto; intros v Hv; now apply Hnames).
  rewrite find_app_skip.
  - cbn [find].
    assert (Hm : matches S' S = true).
    { apply matches_spec. split; auto. intros x Hx. now apply (Permutation_in _ Hperm). }
    now rewrite Hm.
  - intros t Ht. apply in_map_iff in Ht. destruct Ht as [e [<- He]].
    destruct (Hpre e He) as [Hndt Hnp].
    destruct (matches S' (split (Some (String c "")) e)) eqn:Em; auto.
    exfalso. apply Hnp. apply matches_spec in Em. destruct Em as [Hincl Hl].
    apply Permutation_trans with S'; [|now apply Permutation_sym].
    apply NoDup_Permutation; auto.
    + now apply (Permutation_NoDup Hperm).
    + intros x. split; [apply Hincl|].
      apply (NoDup_length_incl Hndt); [lia|auto].
Qed.

(** ** Scenarios on which the code departs from its documentation *)

(** C1. With both syntaxes registered, the set built from a value map
    that has the names of both holds a single member, under the sorted
    keys of the whole map; it contains neither ["user/123"] nor
    ["a/b.com"], and equals neither of the two partial descriptions. *)
Theorem set_from_uri_has_one_member :
  fst (OloIdSyntax.getSyntaxes None false two_syntaxes)
  = [["type"; "id"]; ["username"; "domain"]] /\
  exists set,
    fst (OloIdSet.new (OloIdSet.SrcUri user_uri) no_options two_syntaxes) = Some set /\
    map OloId.toJSON (obj_values (set_uri set))
    = [[("domain", VStr "b.com"); ("id", VStr "123"); ("type", VStr "user"); ("username", VStr "a")]] /\
    OloIdSet.toString set = "b.com/123/user/a" /\
    includes "user/123" (OloIdSet.toString set) = false /\
    includes "a/b.com" (OloIdSet.toString set) = false /\
    OloIdSet.isSame set (CString "user/123") (Some (SynArray ["type"; "id"])) = false /\
    OloIdSet.isSame set (CUri [("username", VStr "a"); ("domain", VStr "b.com")]) None = false.
Proof.
  split; [reflexivity|]. eexists. split; [reflexivity|]. repeat split.
Qed.

(** C2. Once [['a', 'b']] is registered, both orders resolve to it and
    resolving the other order with [register] adds nothing; registering
    the other order through [setSyntaxes] adds a second entry for the same
    names. *)
Theorem reordered_syntax_is_registered_twice :
  let st := OloIdSyntax.new (Some [SynArray ["a"; "b"]]) None fresh in
  fst (OloIdSyntax.getSyntaxes (Some (SynArray ["a"; "b"])) false st) = [["a"; "b"]] /\
  fst (OloIdSyntax.getSyntaxes (Some (SynArray ["b"; "a"])) false st) = [["a"; "b"]] /\
  syntaxes (snd (OloIdSyntax.getSyntaxes (Some (SynArray ["b"; "a"])) true st)) = ["a/b"] /\
  OloIdSyntax.setSyntaxes (Some [SynArray ["b"; "a"]]) st
  = ([["a"; "b"]; ["b"; "a"]], mkRegistry (Some "/") ["a/b"; "b/a"]).
Proof. repeat split. Qed.

(** C3. Registering [['a', 'b']] evicts the sentinel, and further
    registrations do not bring it back; but every [OloIdSyntax] made
    without arguments, and with it every [OloId] and [OloIdSet], registers
    the sentinel again. *)
Theorem sentinel_comes_back :
  let st0 := OloIdSyntax.new None None fresh in
  let st1 := snd (OloIdSyntax.setSyntaxes (Some [SynArray ["a"; "b"]]) st0) in
  let st2 := snd (OloIdSyntax.setSyntaxes (Some [SynArray ["c"]]) st1) in
  fst (OloIdSyntax.getSyntaxes None false st0) = [["UNDEFINED"]] /\
  fst (OloIdSyntax.getSyntaxes None false st1) = [["a"; "b"]] /\
  fst (OloIdSyntax.getSyntaxes None false st2) = [["a"; "b"]; ["c"]] /\
  fst (OloIdSyntax.getSyntaxes None false (OloIdSyntax.new None None st1))
  = [["a"; "b"]; ["UNDEFINED"]] /\
  fst (OloIdSyntax.getSyntaxes None false
         (snd (OloId.new (OloId.SrcString "x/y")
                         (mkOptions (Some (SynArray ["a"; "b"])) false None) st1)))
  = [["a"; "b"]; ["UNDEFINED"]] /\
  fst (OloIdSyntax.getSyntaxes None false
         (snd (OloIdSet.new (OloIdSet.SrcUri [("a", VStr "x"); ("b", VStr "y")]) no_options st1)))
  = [["a"; "b"]; ["UNDEFINED"]].
Proof. repeat split. Qed.

(** * Further properties of the code *)

(** * Further properties of the code *)

(** ** What a construction does to the registry *)

Lemma OloId_new_state uri options st :
  snd (OloId.new uri options st)
  = snd (OloIdSyntax.getSyntaxes
           (match opt_syntax options with
            | Some s => Some s
            | None => option_map SynUri (workingUri_of uri)
            end)
           (opt_register options) (OloIdSyntax.new None None st)).
Proof.
  unfold OloId.new.
  replace (match uri with
           | OloId.SrcId id0 => Some (OloId.toJSON id0)
           | OloId.SrcUri u => Some u
           | _ => None
           end) with (workingUri_of uri) by (destruct uri; reflexivity).
  destruct (OloIdSyntax.getSyntaxes _ _ _) as [found st2].
  destruct found; [|destruct (OloId.forEach_throws _ _)]; reflexivity.
Qed.

(** A property of the registry that the constructor of [OloIdSyntax] and
    resolution with the permitted [register] flags keep is kept by the
    constructors of [OloId] and [OloIdSet]. *)
Section Preserved.

Variable P : Registry -> Prop.
Variable permitted : bool -> bool.

Hypothesis permitted_false : permitted false = true.
Hypothesis P_new : forall st, P st -> P (OloIdSyntax.new None None st).
Hypothesis P_get : forall syntax register st,
    permitted register = true -> P st ->
    P (snd (OloIdSyntax.getSyntaxes syntax register st)).

Lemma preserved_new_id uri options st :
  permitted (opt_register options) = true -> P st -> P (snd (OloId.new uri options st)).
Proof. intros Hr H. rewrite OloId_new_state. apply P_get; auto. Qed.

Lemma preserved_fold {A B} (f : B * Registry -> A -> B * Registry) (l : list A)
      (acc : B * Registry) :
  (forall acc x, P (snd acc) -> P (snd (f acc x))) ->
  P (snd acc) -> P (snd (fold_left f l acc)).
Proof. intros Hf. revert acc. induction l; simpl; auto. Qed.

Lemma preserved_resolve_keys register keys st :
  permitted register = true -> P st -> P (snd (OloIdSet.resolve_keys register keys st)).
Proof.
  intros Hr H. unfold OloIdSet.resolve_keys. apply preserved_fold; auto.
  intros acc x Hacc.
  pose proof (P_get (Some (SynString x)) register _ Hr Hacc) as Hk.
  destruct (OloIdSyntax.getSyntaxes _ _ _); auto.
Qed.

Lemma preserved_adopt ids options acc syntaxItem :
  permitted (opt_register options) = true ->
  P (snd acc) -> P (snd (OloIdSet.adopt ids options acc syntaxItem)).
Proof.
  intros Hr H. unfold OloIdSet.adopt. destruct (fst acc); auto.
  match goal with |- context [OloId.new ?a ?b ?c] =>
    pose proof (preserved_new_id a b c Hr H) as Hk;
    destruct (OloId.new a b c) as [[id|] st'] end; auto.
Qed.

Lemma preserved_interpret workingUri sep acc syntaxItem :
  P (snd acc) -> P (snd (OloIdSet.interpret workingUri sep acc syntaxItem)).
Proof.
  intros H. unfold OloIdSet.interpret. destruct (fst acc); auto.
  match goal with |- context [OloId.new ?a ?b ?c] =>
    pose proof (preserved_new_id a b c permitted_false H) as Hk;
    destruct (OloId.new a b c) as [[id|] st'] end; auto.
Qed.

Lemma preserved_new_set uri options st :
  permitted (opt_register options) = true -> P st -> P (snd (OloIdSet.new uri options st)).
Proof.
  intros Hr H. unfold OloIdSet.new.
  pose proof (P_new st H) as H1.
  set (st1 := OloIdSyntax.new None None st) in *. clearbody st1.
  assert (Hmap : forall ids,
             P (snd (let (resolved, st2) :=
                       OloIdSet.resolve_keys (opt_register options) (obj_keys ids) st1 in
                     let (built, st3) :=
                       fold_left (OloIdSet.adopt ids options) resolved (Some [], st2) in
                     (option_map mkOloIdSet built, st3)))).
  { intros ids.
    pose proof (preserved_resolve_keys (opt_register options) (obj_keys ids) st1 Hr H1) as H2.
    destruct (OloIdSet.resolve_keys _ _ _) as [resolved st2].
    pose proof (preserved_fold (OloIdSet.adopt ids options) resolved (Some [], st2)
                               (fun acc x => preserved_adopt ids options acc x Hr) H2) as H3.
    destruct (fold_left _ _ _) as [built st3]. exact H3. }
  assert (Huri : forall workingUri,
             P (snd (let (found, st2) :=
                       OloIdSyntax.getSyntaxes (Some (SynUri workingUri))
                                               (opt_register options) st1 in
                     let (built, st3) :=
                       fold_left (OloIdSet.interpret workingUri (opt_separator options))
                                 found (Some [], st2) in
                     (option_map mkOloIdSet built, st3)))).
  { intros workingUri.
    pose proof (P_get (Some (SynUri workingUri)) (opt_register options) st1 Hr H1) as H2.
    destruct (OloIdSyntax.getSyntaxes _ _ _) as [found st2].
    pose proof (preserved_fold (OloIdSet.interpret workingUri (opt_separator options)) found
                               (Some [], st2)
                               (preserved_interpret workingUri (opt_separator options)) H2) as H3.
    destruct (fold_left _ _ _) as [built st3]. exact H3. }
  destruct uri as [str|[|kv u]|ids|other].
  - pose proof (preserved_new_id (OloId.SrcString str) options st1 Hr H1) as H2.
    destruct (OloId.new _ _ _) as [[id|] st2]; exact H2.
  - apply (Hmap []).
  - apply Huri.
  - apply Hmap.
  - apply Huri.
Qed.

End Preserved.

(** ** Registered syntaxes stay registered *)

Lemma set_delete_In x u l : In x (set_delete u l) <-> In x l /\ x <> u.
Proof.
  unfold set_delete. rewrite filter_In. split; intros [H1 H2]; split; auto.
  - intros ->. now rewrite String.eqb_refl in H2.
  - destruct (String.eqb_spec u x); auto.
Qed.

Lemma set_add_In x y l : In x (set_add y l) <-> x = y \/ In x l.
Proof.
  unfold set_add. destruct (arr_includes y l) eqn:E.
  - apply arr_includes_In in E. split; auto. intros [->|H]; auto.
  - rewrite in_app_iff. simpl. intuition.
Qed.

Lemma survives_refl st : survives st st.
Proof. intros s _ H. exact H. Qed.

Lemma survives_trans st1 st2 st3 : survives st1 st2 -> survives st2 st3 -> survives st1 st3.
Proof. intros H12 H23 s Hs H. apply H23; auto. Qed.

Lemma register_one_survives st set syntax s :
  s <> ID_TYPE_UNDEFINED -> In s set -> In s (OloIdSyntax.register_one st set syntax).
Proof.
  intros Hs H. unfold OloIdSyntax.register_one. destruct (Nat.ltb 0 _); auto.
  apply set_add_In. right. apply set_delete_In. auto.
Qed.

Lemma registerSyntaxes_survives l st : survives st (snd (OloIdSyntax.registerSyntaxes l st)).
Proof.
  intros s Hs H. unfold OloIdSyntax.registerSyntaxes. cbn [snd syntaxes].
  revert H. generalize (syntaxes st) as set.
  induction l as [|x l IH]; intros set H; simpl; auto.
  apply IH. now apply register_one_survives.
Qed.

Lemma new_syntax_survives l seperator st : survives st (OloIdSyntax.new l seperator st).
Proof.
  unfold OloIdSyntax.new. intros s Hs H. apply registerSyntaxes_survives; auto.
Qed.

Lemma getSyntaxes_survives syntax register st :
  survives st (snd (OloIdSyntax.getSyntaxes syntax register st)).
Proof.
  unfold OloIdSyntax.getSyntaxes. destruct (Nat.eqb _ 0); [apply survives_refl|].
  destruct (find _ _); [apply survives_refl|].
  destruct register; [apply registerSyntaxes_survives|apply survives_refl].
Qed.

Lemma survives_get st syntax (register : bool) st1 :
  true = true -> survives st st1 ->
  survives st (snd (OloIdSyntax.getSyntaxes syntax register st1)).
Proof. intros _ H. eapply survives_trans; [exact H|apply getSyntaxes_survives]. Qed.

Lemma survives_new st st1 :
  survives st st1 -> survives st (OloIdSyntax.new None None st1).
Proof. intros H. eapply survives_trans; [exact H|apply new_syntax_survives]. Qed.

Lemma step_survives st op : survives st (step st op).
Proof.
  destruct op as [l sp|[l|]|syntax register|uri options|uri options];
    cbn [step OloIdSyntax.setSyntaxes].
  - apply new_syntax_survives.
  - apply registerSyntaxes_survives.
  - apply getSyntaxes_survives.
  - apply getSyntaxes_survives.
  - apply (preserved_new_id (survives st) (fun _ => true) (survives_new st)
                            (survives_get st));
      [reflexivity|apply survives_refl].
  - apply (preserved_new_set (survives st) (fun _ => true) eq_refl (survives_new st)
                             (survives_get st));
      [reflexivity|apply survives_refl].
Qed.

(** X1. Whatever is constructed, registered or resolved, a syntax that is
    registered stays registered; only the sentinel is ever deleted. *)
Theorem registered_syntaxes_survive (ops : list Op) (st : Registry) :
  survives st (run ops st).
Proof.
  unfold run. revert st. induction ops as [|op ops IH]; intros st; simpl.
  - apply survives_refl.
  - eapply survives_trans; [apply step_survives|apply IH].
Qed.

Lemma set_delete_not_In u l : ~ In u (set_delete u l).
Proof. intros H. apply set_delete_In in H. now destruct H. Qed.

Lemma set_add_present x l : In x l -> set_add x l = l.
Proof. intros H. unfold set_add. apply arr_includes_In in H. now rewrite H. Qed.

Lemma set_add_absent x l : ~ In x l -> set_add x l = (l ++ [x])%list.
Proof.
  intros H. unfold set_add. destruct (arr_includes x l) eqn:E; auto.
  apply arr_includes_In in E. contradiction.
Qed.

(** ** Calls that do not register *)

Lemma registerSyntaxes_nil st : snd (OloIdSyntax.registerSyntaxes [] st) = st.
Proof. now destruct st. Qed.

Lemma new_syntax_nil seperator st :
  separator st <> None -> OloIdSyntax.new (Some []) seperator st = st.
Proof. destruct st as [[sp|] ss]; intros H; [reflexivity|now elim H]. Qed.

Lemma new_syntax_separator_given x seperator st :
  separator st <> None -> OloIdSyntax.new x seperator st = OloIdSyntax.new x None st.
Proof. destruct st as [[sp|] ss]; intros H; [reflexivity|now elim H]. Qed.

Lemma reads_only_step st op :
  OloIdSyntax.new None None st = st -> reads_only op = true -> step st op = st.
Proof.
  intros Hfix Hop.
  assert (Hsep : separator st <> None).
  { rewrite <- Hfix, new_syntax_separator. discriminate. }
  destruct op as [[[|x l]|] sp|[[|x l]|]|syntax register|uri options|uri options];
    try discriminate; cbn [step reads_only OloIdSyntax.setSyntaxes] in *.
  - now apply new_syntax_nil.
  - now rewrite new_syntax_separator_given.
  - apply registerSyntaxes_nil.
  - apply getSyntaxes_no_register.
  - apply negb_true_iff in Hop. subst register. apply getSyntaxes_no_register.
  - apply (preserved_new_id (fun st' => st' = st) negb); auto.
    + now intros st1 ->.
    + intros syntax register st1 Hr ->. apply negb_true_iff in Hr. subst.
      apply getSyntaxes_no_register.
  - apply (preserved_new_set (fun st' => st' = st) negb); auto.
    + now intros st1 ->.
    + intros syntax register st1 Hr ->. apply negb_true_iff in Hr. subst.
      apply getSyntaxes_no_register.
Qed.

Lemma OloIdSet_new_again uri options st :
  OloIdSet.new uri options (OloIdSyntax.new None None st) = OloIdSet.new uri options st.
Proof. unfold OloIdSet.new. now rewrite new_default_again. Qed.

(** What a call that does not register does to the registry, once the
    separator is set. *)
Lemma reads_only_step_from st op :
  separator st <> None -> reads_only op = true ->
  step st op = if default_construction op then OloIdSyntax.new None None st else st.
Proof.
  intros Hsep Hop.
  destruct op as [[[|x l]|] sp|[[|x l]|]|syntax register|uri options|uri options];
    try discriminate; cbn [step reads_only default_construction OloIdSyntax.setSyntaxes] in *.
  - now apply new_syntax_nil.
  - now rewrite new_syntax_separator_given.
  - apply registerSyntaxes_nil.
  - apply getSyntaxes_no_register.
  - apply negb_true_iff in Hop. subst register. apply getSyntaxes_no_register.
  - rewrite OloId_new_state. apply negb_true_iff in Hop. rewrite Hop.
    apply getSyntaxes_no_register.
  - rewrite <- OloIdSet_new_again.
    apply (preserved_new_set (fun st' => st' = OloIdSyntax.new None None st) negb); auto.
    + intros st1 ->. apply new_default_again.
    + intros syntax register st1 Hr ->. apply negb_true_iff in Hr. subst.
      apply getSyntaxes_no_register.
Qed.

(** A string that does not hold the separator is not cut. *)
Lemma split_from_whole (sep s cur : string) :
  includes sep s = false -> split_from sep 0 cur s = [(cur ++ s)%string].
Proof.
  revert cur. induction s as [|a s IH]; intros cur H.
  - simpl. now rewrite append_empty_r.
  - cbn [includes] in H. apply orb_false_elim in H. destruct H as [Hpre Hrest].
    cbn [split_from]. rewrite Hpre, IH by auto. now rewrite append_assoc_char.
Qed.

Lemma split_whole (sep s : string) :
  includes sep s = false -> split (Some sep) s = [s].
Proof.
  intros H. unfold split, split_str. destruct sep as [|c sep].
  - destruct s; discriminate H.
  - now apply split_from_whole.
Qed.

(** X2. Calls that do not ask for a registration change the registry in
    one way only: a construction that runs [new OloIdSyntax()] with its
    default argument leaves the registry as that call alone leaves it,
    which, when the separator does not occur in the sentinel, is with the
    sentinel deleted and added again at the end.  After one such
    construction, further calls that do not register change nothing. *)
Theorem reading_leaves_the_registry :
  (forall (ops : list Op) (st : Registry),
      forallb reads_only ops = true ->
      run ops (OloIdSyntax.new None None st) = OloIdSyntax.new None None st) /\
  (forall (ops : list Op) (st : Registry),
      separator st <> None ->
      forallb reads_only ops = true ->
      run ops st
      = if existsb default_construction ops then OloIdSyntax.new None None st else st) /\
  (forall (st : Registry) (sp : string),
      separator st = Some sp ->
      includes sp ID_TYPE_UNDEFINED = false ->
      OloIdSyntax.new None None st
      = mkRegistry (Some sp)
                   (set_delete ID_TYPE_UNDEFINED (syntaxes st) ++ [ID_TYPE_UNDEFINED])).
Proof.
  assert (Hfixed : forall ops st,
             forallb reads_only ops = true ->
             run ops (OloIdSyntax.new None None st) = OloIdSyntax.new None None st).
  { intros ops st Hops. unfold run.
    pose proof (new_default_again st) as Hfix.
    set (st1 := OloIdSyntax.new None None st) in *. clearbody st1.
    induction ops as [|op ops IH]; simpl in *; auto.
    apply andb_true_iff in Hops. destruct Hops as [Hop Hops].
    rewrite (reads_only_step st1 op Hfix Hop). now apply IH. }
  split; [exact Hfixed|]. split.
  - intros ops. induction ops as [|op ops IH]; intros st Hsep Hops; [reflexivity|].
    cbn [forallb] in Hops. apply andb_true_iff in Hops. destruct Hops as [Hop Hops].
    change (run (op :: ops) st) with (run ops (step st op)).
    rewrite (reads_only_step_from st op Hsep Hop). cbn [existsb].
    destruct (default_construction op); cbn [orb].
    + now apply Hfixed.
    + now apply IH.
  - intros st sp Hsep Hfree. rewrite new_default_unfold. cbv zeta. rewrite Hsep.
    unfold OloIdSyntax.normSyntax. cbn [separator].
    rewrite (split_whole sp ID_TYPE_UNDEFINED Hfree). cbn [filter String.eqb negb].
    cbn [List.length Nat.ltb Nat.leb join String.concat].
    f_equal. apply set_add_absent, set_delete_not_In.
Qed.

Lemma reading_leaves_the_registry_witness :
  run [NewOloId (OloId.SrcString "user/123") (with_syntax ["type"; "id"]);
       GetSyntaxes (Some (SynString "username/domain")) false;
       NewOloIdSet (OloIdSet.SrcUri user_uri) no_options;
       NewOloIdSyntax None (Some "-")]
      two_syntaxes
  = mkRegistry (Some "/") ["type/id"; "username/domain"; "UNDEFINED"].
Proof.
  destruct reading_leaves_the_registry as (_ & Hrun & Hnew).
  rewrite (Hrun _ two_syntaxes); [|discriminate|reflexivity].
  cbn [existsb default_construction orb].
  rewrite (Hnew two_syntaxes "/"); reflexivity.
Defined.

(** ** Registering twice *)

Lemma register_one_entry st set syntax :
  OloIdSyntax.register_one st set syntax
  = match entry st syntax with
    | Some x => set_add x (set_delete ID_TYPE_UNDEFINED set)
    | None => set
    end.
Proof. unfold OloIdSyntax.register_one, entry. now destruct (Nat.ltb 0 _). Qed.

Lemma entry_separator st st' syntax :
  separator st' = separator st -> entry st' syntax = entry st syntax.
Proof.
  intros H. unfold entry, OloIdSyntax.normSyntax. now rewrite H.
Qed.

Lemma set_delete_id u l : ~ In u l -> set_delete u l = l.
Proof.
  unfold set_delete. induction l as [|y l IH]; simpl; intros H; auto.
  destruct (String.eqb_spec u y) as [->|Hne]; simpl.
  - exfalso. apply H. auto.
  - f_equal. apply IH. intros Hin. apply H. auto.
Qed.

Lemma set_delete_app u l1 l2 :
  set_delete u (l1 ++ l2) = (set_delete u l1 ++ set_delete u l2)%list.
Proof. unfold set_delete. apply filter_app. Qed.

(** The set once the argument has been gone through, told by its last
    element that adds something. *)
Lemma registered_shape st l set :
  let set' := fold_left (OloIdSyntax.register_one st) l set in
  match last_entry st l with
  | None => set' = set
  | Some x =>
      (x = ID_TYPE_UNDEFINED /\
       set' = (set_delete ID_TYPE_UNDEFINED set' ++ [ID_TYPE_UNDEFINED])%list) \/
      (x <> ID_TYPE_UNDEFINED /\ ~ In ID_TYPE_UNDEFINED set')
  end.
Proof.
  unfold last_entry. induction l as [|y l IH] using rev_ind; [reflexivity|].
  rewrite !fold_left_app. cbn [fold_left]. cbv zeta in *.
  rewrite register_one_entry.
  destruct (entry st y) as [x|]; [|exact IH].
  set (prev := fold_left (OloIdSyntax.register_one st) l set) in *. clearbody prev.
  destruct (String.eqb_spec x ID_TYPE_UNDEFINED) as [->|Hne].
  - left. split; auto.
    rewrite set_add_absent by apply set_delete_not_In.
    rewrite set_delete_app, set_delete_idem. simpl. now rewrite app_nil_r.
  - right. split; auto. intros H. apply set_add_In in H.
    destruct H as [H|H]; [congruence|]. now apply set_delete_not_In in H.
Qed.

(** Everything the argument adds is in the set afterwards, the sentinel
    apart. *)
Lemma registered_entries st l set x :
  x <> ID_TYPE_UNDEFINED ->
  (In x set \/ exists y, In y l /\ entry st y = Some x) ->
  In x (fold_left (OloIdSyntax.register_one st) l set).
Proof.
  intros Hx. revert set. induction l as [|y l IH]; intros set H; simpl.
  - destruct H as [H|[y [[] _]]]. exact H.
  - apply IH. rewrite register_one_entry.
    destruct H as [H|[z [[<-|Hz] Hz']]].
    + left. destruct (entry st y); auto.
      apply set_add_In. right. apply set_delete_In. auto.
    + left. rewrite Hz'. apply set_add_In. auto.
    + right. eauto.
Qed.

(** Going through the argument over a set that already holds what it
    adds. *)
Lemma registered_again st l set :
  (forall y x, In y l -> entry st y = Some x -> x <> ID_TYPE_UNDEFINED -> In x set) ->
  fold_left (OloIdSyntax.register_one st) l set
  = match last_entry st l with
    | None => set
    | Some x =>
        if String.eqb x ID_TYPE_UNDEFINED
        then (set_delete ID_TYPE_UNDEFINED set ++ [ID_TYPE_UNDEFINED])%list
        else set_delete ID_TYPE_UNDEFINED set
    end.
Proof.
  unfold last_entry. induction l as [|y l IH] using rev_ind; intros Hsat; [reflexivity|].
  rewrite !fold_left_app. cbn [fold_left].
  rewrite register_one_entry.
  rewrite IH by (intros z x Hz; apply Hsat; apply in_or_app; auto).
  destruct (entry st y) as [x|] eqn:Ey; [|reflexivity].
  assert (Hdel : set_delete ID_TYPE_UNDEFINED
                   match fold_left
                           (fun acc syntax =>
                              match entry st syntax with Some x0 => Some x0 | None => acc end)
                           l None with
                   | Some x0 =>
                       if String.eqb x0 ID_TYPE_UNDEFINED
                       then (set_delete ID_TYPE_UNDEFINED set ++ [ID_TYPE_UNDEFINED])%list
                       else set_delete ID_TYPE_UNDEFINED set
                   | None => set
                   end = set_delete ID_TYPE_UNDEFINED set).
  { destruct (fold_left _ l None) as [x0|]; auto.
    destruct (String.eqb x0 ID_TYPE_UNDEFINED).
    - rewrite set_delete_app, set_delete_idem. simpl. now rewrite app_nil_r.
    - apply set_delete_idem. }
  rewrite Hdel.
  destruct (String.eqb_spec x ID_TYPE_UNDEFINED) as [->|Hne].
  - apply set_add_absent, set_delete_not_In.
  - apply set_add_present. apply set_delete_In. split; auto.
    apply (Hsat y x); auto. apply in_or_app. simpl. auto.
Qed.

(** X3. Registering the same syntaxes a second time changes nothing: the
    registry and the matrix returned are those of the first time. *)
Theorem registering_twice_is_registering_once (l : list SyntaxArg) (st : Registry) :
  OloIdSyntax.setSyntaxes (Some l) (snd (OloIdSyntax.setSyntaxes (Some l) st))
  = OloIdSyntax.setSyntaxes (Some l) st.
Proof.
  unfold OloIdSyntax.setSyntaxes, OloIdSyntax.registerSyntaxes. cbn [snd separator syntaxes].
  set (set1 := fold_left (OloIdSyntax.register_one st) l (syntaxes st)).
  set (st1 := mkRegistry (separator st) set1).
  assert (Hone : forall set x, OloIdSyntax.register_one st1 set x
                               = OloIdSyntax.register_one st set x).
  { intros set x. rewrite !register_one_entry. now rewrite (entry_separator st st1). }
  assert (Hfold : fold_left (OloIdSyntax.register_one st1) l set1 = set1).
  { replace (fold_left (OloIdSyntax.register_one st1) l set1)
      with (fold_left (OloIdSyntax.register_one st) l set1).
    2:{ apply fold_left_ext_in. intros set x _. symmetry. apply Hone. }
    rewrite registered_again.
    - pose proof (registered_shape st l (syntaxes st)) as Hshape. cbv zeta in Hshape.
      fold set1 in Hshape.
      destruct (last_entry st l) as [x|]; auto.
      destruct Hshape as [[-> Hs]|[Hne Hs]].
      + rewrite String.eqb_refl. now symmetry.
      + destruct (String.eqb_spec x ID_TYPE_UNDEFINED); [congruence|].
        now apply set_delete_id.
    - intros y x Hy Hentry Hne. apply registered_entries; eauto. }
  now rewrite Hfold.
Qed.

(** ** What a resolution returns *)

Lemma getSyntaxes_found syntax register st t :
  OloIdSyntax.normSyntax st syntax <> [] ->
  find (matches (OloIdSyntax.normSyntax st syntax))
       (OloIdSyntax.getSyntaxMatrix st (syntaxes st)) = Some t ->
  OloIdSyntax.getSyntaxes syntax register st = ([t], st).
Proof.
  intros Hne Hfind. unfold OloIdSyntax.getSyntaxes.
  destruct (Nat.eqb_spec (List.length (OloIdSyntax.normSyntax st syntax)) 0) as [H0|_].
  { apply length_zero_iff_nil in H0. contradiction. }
  change (find _ (OloIdSyntax.getSyntaxMatrix st (syntaxes st)))
    with (find (matches (OloIdSyntax.normSyntax st syntax))
               (OloIdSyntax.getSyntaxMatrix st (syntaxes st))).
  now rewrite Hfind.
Qed.

Lemma getSyntaxes_not_found syntax register st :
  OloIdSyntax.normSyntax st syntax <> [] ->
  find (matches (OloIdSyntax.normSyntax st syntax))
       (OloIdSyntax.getSyntaxMatrix st (syntaxes st)) = None ->
  OloIdSyntax.getSyntaxes syntax register st
  = ([OloIdSyntax.normSyntax st syntax],
     if register
     then snd (OloIdSyntax.registerSyntaxes [SynArray (OloIdSyntax.normSyntax st syntax)] st)
     else st).
Proof.
  intros Hne Hfind. unfold OloIdSyntax.getSyntaxes.
  destruct (Nat.eqb_spec (List.length (OloIdSyntax.normSyntax st syntax)) 0) as [H0|_].
  { apply length_zero_iff_nil in H0. contradiction. }
  change (find _ (OloIdSyntax.getSyntaxMatrix st (syntaxes st)))
    with (find (matches (OloIdSyntax.normSyntax st syntax))
               (OloIdSyntax.getSyntaxMatrix st (syntaxes st))).
  rewrite Hfind. now destruct register.
Qed.

Lemma getSyntaxes_shape syntax register st :
  OloIdSyntax.normSyntax st syntax <> [] ->
  exists t,
    fst (OloIdSyntax.getSyntaxes syntax register st) = [t] /\
    incl t (OloIdSyntax.normSyntax st syntax) /\
    List.length t = List.length (OloIdSyntax.normSyntax st syntax).
Proof.
  intros Hne.
  destruct (find (matches (OloIdSyntax.normSyntax st syntax))
                 (OloIdSyntax.getSyntaxMatrix st (syntaxes st))) as [t|] eqn:Hfind.
  - exists t. rewrite (getSyntaxes_found _ _ _ _ Hne Hfind).
    apply find_some in Hfind. destruct Hfind as [_ Hm]. apply matches_spec in Hm.
    split; [reflexivity|exact Hm].
  - exists (OloIdSyntax.normSyntax st syntax).
    rewrite (getSyntaxes_not_found _ _ _ Hne Hfind).
    split; [reflexivity|]. split; [apply incl_refl|reflexivity].
Qed.

(** X4. A query with at least one name is answered with exactly one
    syntax: a registered syntax that has as many names as the query, all
    of them names of the query, or else the query itself.
    The answer is the same with and without [register]. *)
Theorem resolution_answers_with_the_names_asked
        (syntax : option SyntaxArg) (register : bool) (st : Registry) :
  OloIdSyntax.normSyntax st syntax <> [] ->
  exists t,
    fst (OloIdSyntax.getSyntaxes syntax register st) = [t] /\
    fst (OloIdSyntax.getSyntaxes syntax (negb register) st) = [t] /\
    incl t (OloIdSyntax.normSyntax st syntax) /\
    List.length t = List.length (OloIdSyntax.normSyntax st syntax) /\
    (In t (OloIdSyntax.getSyntaxMatrix st (syntaxes st)) \/
     t = OloIdSyntax.normSyntax st syntax).
Proof.
  intros Hne.
  destruct (find (matches (OloIdSyntax.normSyntax st syntax))
                 (OloIdSyntax.getSyntaxMatrix st (syntaxes st))) as [t|] eqn:Hfind.
  - exists t. rewrite !(getSyntaxes_found _ _ _ _ Hne Hfind).
    apply find_some in Hfind. destruct Hfind as [Hin Hm]. apply matches_spec in Hm.
    destruct Hm as [Hincl Hlen]. auto 6.
  - exists (OloIdSyntax.normSyntax st syntax).
    rewrite !(getSyntaxes_not_found _ _ _ Hne Hfind).
    repeat split; auto using incl_refl.
Qed.

Lemma resolution_answers_with_the_names_asked_witness :
  exists t,
    fst (OloIdSyntax.getSyntaxes (Some (SynUri [("id", VStr "1"); ("type", VStr "user")]))
                                 false two_syntaxes) = [t] /\
    fst (OloIdSyntax.getSyntaxes (Some (SynUri [("id", VStr "1"); ("type", VStr "user")]))
                                 (negb false) two_syntaxes) = [t] /\
    incl t (OloIdSyntax.normSyntax two_syntaxes
                                   (Some (SynUri [("id", VStr "1"); ("type", VStr "user")]))) /\
    List.length t
    = List.length (OloIdSyntax.normSyntax two_syntaxes
                                          (Some (SynUri [("id", VStr "1"); ("type", VStr "user")]))) /\
    (In t (OloIdSyntax.getSyntaxMatrix two_syntaxes (syntaxes two_syntaxes)) \/
     t = OloIdSyntax.normSyntax two_syntaxes
                                (Some (SynUri [("id", VStr "1"); ("type", VStr "user")]))).
Proof. apply resolution_answers_with_the_names_asked. discriminate. Defined.

(** ** Resolving what has just been registered *)

Lemma normSyntax_no_empty st syntax n :
  In n (OloIdSyntax.normSyntax st syntax) -> n <> "".
Proof.
  unfold OloIdSyntax.normSyntax. intros H. apply filter_In in H. destruct H as [_ H].
  intros ->. discriminate.
Qed.

Lemma normSyntax_array st names :
  (forall n, In n names -> n <> "") ->
  OloIdSyntax.normSyntax st (Some (SynArray names)) = names.
Proof.
  intros H. unfold OloIdSyntax.normSyntax. apply forallb_filter_id, forallb_forall.
  intros n Hn. apply H in Hn. now destruct (String.eqb_spec n "").
Qed.

Lemma find_none_incl {A} (f : A -> bool) (l l' : list A) :
  incl l' l -> find f l = None -> forall x, In x l' -> f x = false.
Proof. intros Hincl Hfind x Hx. eapply find_none; eauto. Qed.

(** X5. After a resolution with [register], resolving the same query
    again, with or without [register], gives the same answer and leaves
    the registry as it is.  The separator is one character and no name of
    the query contains it. *)
Theorem resolution_is_stable_after_registration
        (c : ascii) (syntax : option SyntaxArg) (st : Registry) (again : bool) :
  separator st = Some (String c "") ->
  (forall n, In n (OloIdSyntax.normSyntax st syntax) -> includes (String c "") n = false) ->
  OloIdSyntax.getSyntaxes syntax again (snd (OloIdSyntax.getSyntaxes syntax true st))
  = OloIdSyntax.getSyntaxes syntax true st.
Proof.
  intros Hsep Hfree.
  set (input := OloIdSyntax.normSyntax st syntax) in *.
  destruct input as [|n0 rest] eqn:Einput.
  { assert (H : forall r st', separator st' = separator st ->
                              OloIdSyntax.getSyntaxes syntax r st'
                              = (OloIdSyntax.getSyntaxMatrix st' (syntaxes st'), st')).
    { intros r st' Hs. unfold OloIdSyntax.getSyntaxes.
      replace (OloIdSyntax.normSyntax st' syntax) with (OloIdSyntax.normSyntax st syntax)
        by (unfold OloIdSyntax.normSyntax; now rewrite Hs).
      fold input. now rewrite Einput. }
    rewrite (H true st eq_refl). cbn [snd]. now rewrite (H again st eq_refl). }
  assert (Hne : OloIdSyntax.normSyntax st syntax <> []) by (fold input; rewrite Einput; discriminate).
  destruct (find (matches (OloIdSyntax.normSyntax st syntax))
                 (OloIdSyntax.getSyntaxMatrix st (syntaxes st))) as [t|] eqn:Hfind.
  { rewrite (getSyntaxes_found _ true _ _ Hne Hfind). cbn [snd].
    apply (getSyntaxes_found _ again _ _ Hne Hfind). }
  rewrite (getSyntaxes_not_found _ true _ Hne Hfind). cbn [snd].
  fold input in Hne, Hfind |- *. rewrite <- Einput in *. clear Einput n0 rest.
  assert (Hnames : forall n, In n input -> n <> "")
    by (intros n Hn; eapply normSyntax_no_empty; exact Hn).
  set (joined := join (Some (String c "")) input).
  assert (Hsplit : split (Some (String c "")) joined = input)
    by (apply split_join; auto).
  assert (Hmatch : matches input input = true)
    by (apply matches_spec; split; [apply incl_refl|reflexivity]).
  assert (Habsent : ~ In joined (set_delete ID_TYPE_UNDEFINED (syntaxes st))).
  { intros Hin. apply set_delete_In in Hin. destruct Hin as [Hin _].
    assert (Hf : matches input (split (separator st) joined) = false).
    { eapply find_none; [exact Hfind|].
      unfold OloIdSyntax.getSyntaxMatrix. now apply in_map. }
    rewrite Hsep, Hsplit, Hmatch in Hf. discriminate. }
  set (st' := snd (OloIdSyntax.registerSyntaxes [SynArray input] st)).
  assert (Hst' : st' = mkRegistry (separator st)
                                  (set_delete ID_TYPE_UNDEFINED (syntaxes st) ++ [joined])).
  { unfold st', OloIdSyntax.registerSyntaxes. cbn [snd fold_left].
    unfold OloIdSyntax.register_one. rewrite (normSyntax_array st input Hnames).
    destruct input as [|n0 rest]; [congruence|]. cbn [List.length Nat.ltb Nat.leb].
    rewrite Hsep. fold joined. now rewrite set_add_absent. }
  assert (Hinput' : OloIdSyntax.normSyntax st' syntax = input).
  { unfold input, OloIdSyntax.normSyntax. now rewrite Hst'. }
  assert (Hfind' : find (matches (OloIdSyntax.normSyntax st' syntax))
                        (OloIdSyntax.getSyntaxMatrix st' (syntaxes st')) = Some input).
  { rewrite Hinput'. unfold OloIdSyntax.getSyntaxMatrix. rewrite Hst'.
    cbn [separator syntaxes]. rewrite map_app. rewrite find_app_skip.
    - cbn [map find]. now rewrite Hsep, Hsplit, Hmatch.
    - intros t Ht. apply in_map_iff in Ht. destruct Ht as [e [<- He]].
      apply set_delete_In in He. destruct He as [He _].
      eapply find_none; [exact Hfind|].
      unfold OloIdSyntax.getSyntaxMatrix. now apply in_map. }
  rewrite (getSyntaxes_found syntax again st' input); auto.
Qed.

Lemma resolution_is_stable_after_registration_witness :
  OloIdSyntax.getSyntaxes (Some (SynString "section/key")) false
                          (snd (OloIdSyntax.getSyntaxes (Some (SynString "section/key")) true
                                                        two_syntaxes))
  = OloIdSyntax.getSyntaxes (Some (SynString "section/key")) true two_syntaxes.
Proof.
  apply (resolution_is_stable_after_registration "/"%char).
  - reflexivity.
  - intros n [<-|[<-|[]]]; reflexivity.
Defined.

(** ** The names of the value map *)

Lemma array_index_inj (a b : string) (n : N) :
  array_index a = Some n -> array_index b = Some n -> a = b.
Proof.
  unfold array_index. intros Ha Hb.
  destruct (NilEmpty.uint_of_string a) as [da|]; [|discriminate].
  destruct (NilEmpty.uint_of_string b) as [db|]; [|discriminate].
  cbv zeta in *.
  destruct (String.eqb_spec (NilZero.string_of_uint (N.to_uint (N.of_uint da))) a) as [Ea|];
    [|discriminate].
  destruct (String.eqb_spec (NilZero.string_of_uint (N.to_uint (N.of_uint db))) b) as [Eb|];
    [|discriminate].
  simpl in Ha, Hb.
  destruct (N.leb (N.of_uint da) 4294967294); [|discriminate].
  destruct (N.leb (N.of_uint db) 4294967294); [|discriminate].
  injection Ha as Ha. injection Hb as Hb. congruence.
Qed.

Lemma array_index_proto : array_index "__proto__" = None.
Proof. reflexivity. Qed.

Lemma plain_name_spec (k : string) :
  plain_name k = true <-> array_index k = None /\ k <> "__proto__".
Proof.
  unfold plain_name. destruct (array_index k).
  - split; [discriminate|intros [H _]; discriminate].
  - rewrite negb_true_iff, String.eqb_neq. tauto.
Qed.

Lemma key_before_trans (a b c : string) : key_before a b -> key_before b c -> key_before a c.
Proof.
  unfold key_before.
  destruct (array_index a), (array_index b), (array_index c); auto; try tauto.
  apply N.lt_trans.
Qed.

Section KeyOrder.

Context {A : Type}.

Lemma sorted_snoc (l : list string) (k : string) :
  enumerated l -> Forall (fun x => key_before x k) l -> enumerated (l ++ [k]).
Proof.
  unfold enumerated. induction l as [|x l IH]; simpl; intros Hs Hall.
  - repeat constructor.
  - inversion Hs as [|? ? Hs' Hx]; subst. inversion Hall as [|? ? Hxk Hall']; subst.
    constructor; auto. apply Forall_app. split; auto.
Qed.

Lemma sorted_before (l1 l2 : list string) (k : string) :
  enumerated (l1 ++ k :: l2) -> Forall (fun x => key_before x k) l1.
Proof.
  unfold enumerated. induction l1 as [|x l1 IH]; simpl; intros Hs; constructor.
  - inversion Hs as [|? ? _ Hx]; subst. apply Forall_app in Hx. destruct Hx as [_ Hx].
    now inversion Hx.
  - apply IH. now inversion Hs.
Qed.

Lemma insert_index_end (n : N) (k : string) (v : A) (o : Obj A) :
  array_index k = Some n ->
  Forall (fun x => key_before x k) (obj_keys o) ->
  insert_index n k v o = (o ++ [(k, v)])%list.
Proof.
  intros Hn. unfold obj_keys. induction o as [|[k1 v1] o IH]; simpl; intros Hall; auto.
  inversion Hall as [|? ? Hk1 Hall']; subst. unfold key_before in Hk1. rewrite Hn in Hk1.
  destruct (array_index k1) as [n1|]; [|destruct Hk1].
  apply N.ltb_lt in Hk1. rewrite Hk1. f_equal. now apply IH.
Qed.

(** An assignment that creates a key after all the others puts it last. *)
Lemma obj_set_end (k : string) (v : A) (o : Obj A) :
  ~ In k (obj_keys o) -> k <> "__proto__" ->
  Forall (fun x => key_before x k) (obj_keys o) ->
  obj_set k v o = (o ++ [(k, v)])%list.
Proof.
  intros Hnot Hp Hall. destruct (array_index k) as [n|] eqn:E.
  - rewrite (obj_set_index n) by auto. now apply insert_index_end.
  - now apply obj_set_name.
Qed.

Lemma insert_index_enumerated (n : N) (k : string) (v : A) (o : Obj A) :
  array_index k = Some n -> ~ In k (obj_keys o) ->
  enumerated (obj_keys o) -> enumerated (obj_keys (insert_index n k v o)).
Proof.
  intros Hn. unfold enumerated, obj_keys.
  induction o as [|[k1 v1] o IH]; simpl; intros Hnot Hs.
  - repeat constructor.
  - inversion Hs as [|? ? Hs' Hall]; subst.
    assert (Hne : k1 <> k) by (intros ->; apply Hnot; auto).
    assert (Hhead : forall m, array_index k1 = Some m -> N.ltb m n = false ->
                              key_before k k1).
    { intros m Hm Hlt. unfold key_before. rewrite Hn, Hm.
      apply N.ltb_ge in Hlt. apply N.le_lteq in Hlt. destruct Hlt as [Hlt|Heq]; auto.
      subst m. exfalso. apply Hne. now apply (array_index_inj _ _ n). }
    assert (Hcons : key_before k k1 -> StronglySorted key_before (k :: k1 :: map fst o)).
    { intros Hk. constructor; [now constructor|]. constructor; auto.
      eapply Forall_impl; [|exact Hall]. intros x Hx. now apply (key_before_trans _ k1). }
    destruct (array_index k1) as [n1|] eqn:E1.
    + destruct (N.ltb n1 n) eqn:Hlt; simpl.
      * constructor; [apply IH; auto|].
        pose proof (Permutation_map fst (insert_index_perm n k v o)) as Hperm.
        apply (Permutation_Forall (Permutation_sym Hperm)). simpl. constructor; auto.
        unfold key_before. rewrite E1, Hn. now apply N.ltb_lt.
      * apply Hcons. now apply (Hhead n1).
    + simpl. apply Hcons. unfold key_before. now rewrite Hn, E1.
Qed.

Lemma obj_set_enumerated (k : string) (v : A) (o : Obj A) :
  enumerated (obj_keys o) -> enumerated (obj_keys (obj_set k v o)).
Proof.
  intros Hs. destruct (in_dec string_dec k (obj_keys o)) as [Hown|Hnot].
  - now rewrite obj_set_own, obj_update_keys.
  - destruct (string_dec k "__proto__") as [->|Hp].
    + now rewrite obj_set_proto.
    + destruct (array_index k) as [n|] eqn:E.
      * rewrite (obj_set_index n) by auto. now apply insert_index_enumerated.
      * rewrite obj_set_name by auto. unfold obj_keys. rewrite map_app. simpl.
        apply sorted_snoc; auto. apply Forall_forall. intros x _.
        unfold key_before. rewrite E. now destruct (array_index x).
Qed.

Lemma fill_with_enumerated {E} (key : E -> string) (f : E -> A) (l : list E) (o : Obj A) :
  enumerated (obj_keys o) -> enumerated (obj_keys (fill_with key f l o)).
Proof.
  unfold fill_with. revert o. induction l as [|e l IH]; intros o H; simpl; auto.
  apply IH. now apply obj_set_enumerated.
Qed.

(** The keys that are no array indices stay in the order of their
    creation. *)
Lemma insert_index_names (n : N) (k : string) (v : A) (o : Obj A) :
  array_index k = Some n ->
  filter plain_name (obj_keys (insert_index n k v o)) = filter plain_name (obj_keys o).
Proof.
  intros Hn. assert (Hk : plain_name k = false) by (unfold plain_name; now rewrite Hn).
  unfold obj_keys. induction o as [|[k1 v1] o IH]; simpl.
  - now rewrite Hk.
  - destruct (array_index k1) as [n1|] eqn:E1; [destruct (N.ltb n1 n)|]; simpl;
      rewrite ?Hk, ?IH; auto.
Qed.

Lemma fill_with_names {E} (key : E -> string) (f : E -> A) (l : list E) (o : Obj A) :
  NoDup (obj_keys o ++ map key l) ->
  filter plain_name (obj_keys (fill_with key f l o))
  = (filter plain_name (obj_keys o) ++ filter plain_name (map key l))%list.
Proof.
  unfold fill_with. revert o. induction l as [|e l IH]; intros o H; simpl.
  - now rewrite app_nil_r.
  - assert (Hk : ~ In (key e) (obj_keys o)).
    { intros Hin. apply NoDup_remove_2 in H. apply H. apply in_or_app. auto. }
    assert (Hperm : forall o' : Obj A, Permutation (obj_keys o') (key e :: obj_keys o) ->
                               NoDup (obj_keys o' ++ map key l)).
    { intros o' Hp. apply (Permutation_NoDup (l := (key e :: obj_keys o) ++ map key l)).
      - apply Permutation_app_tail. now apply Permutation_sym.
      - simpl. apply (Permutation_NoDup (Permutation_sym (Permutation_middle _ _ _))). exact H. }
    destruct (string_dec (key e) "__proto__") as [Hp|Hp].
    + rewrite Hp in *. rewrite obj_set_proto by auto.
      rewrite IH by (now apply NoDup_remove_1 in H). reflexivity.
    + destruct (array_index (key e)) as [n|] eqn:Eidx.
      * rewrite (obj_set_index n) by auto.
        rewrite IH by (apply Hperm; exact (Permutation_map fst (insert_index_perm n _ _ o))).
        rewrite insert_index_names by auto.
        assert (Hpl : plain_name (key e) = false) by (unfold plain_name; now rewrite Eidx).
        now rewrite Hpl.
      * rewrite obj_set_name by auto.
        rewrite IH.
        -- unfold obj_keys. rewrite map_app, filter_app. simpl.
           assert (Hpl : plain_name (key e) = true) by (apply plain_name_spec; auto).
           rewrite Hpl. now rewrite <- app_assoc.
        -- apply Hperm. unfold obj_keys. rewrite map_app. simpl.
           apply Permutation_sym, Permutation_cons_append.
Qed.

(** An object whose keys are in the order of [Object.keys], without
    repetition and without [__proto__], is what assigning its entries in
    turn gives. *)
Lemma obj_assign_onto (target source : Obj A) :
  NoDup (obj_keys (target ++ source)%list) ->
  ~ In "__proto__" (obj_keys source) ->
  enumerated (obj_keys (target ++ source)%list) ->
  obj_assign target source = (target ++ source)%list.
Proof.
  unfold obj_assign. revert target.
  induction source as [|[k v] source IH]; intros target Hnd Hp Hs; simpl.
  - now rewrite app_nil_r.
  - unfold obj_keys in *. rewrite map_app in Hnd, Hs. simpl in *.
    rewrite obj_set_end.
    + rewrite IH; rewrite <- ?app_assoc; simpl; auto.
      * now rewrite map_app.
      * now rewrite map_app.
    + intros Hin. apply NoDup_remove_2 in Hnd. apply Hnd. apply in_or_app. auto.
    + intros ->. apply Hp. auto.
    + now apply (sorted_before _ (map fst source)).
Qed.

End KeyOrder.

Lemma OloId_new_nodup_keys uri options st id st' :
  OloId.new uri options st = (Some id, st') -> NoDup (obj_keys (id_uri id)).
Proof.
  intros H. destruct (OloId_new_inv _ _ _ _ _ H) as (_ & Hundef & Hfill).
  destruct uri; try (rewrite Hfill by discriminate; apply fill_with_nodup; constructor).
  destruct (Hundef eq_refl) as [_ ->]. constructor.
Qed.

Lemma OloId_new_enumerated uri options st id st' :
  OloId.new uri options st = (Some id, st') -> enumerated (obj_keys (id_uri id)).
Proof.
  intros H. destruct (OloId_new_inv _ _ _ _ _ H) as (_ & Hundef & Hfill).
  destruct uri; try (rewrite Hfill by discriminate; apply fill_with_enumerated; constructor).
  destruct (Hundef eq_refl) as [_ ->]. constructor.
Qed.

Lemma OloId_new_names uri options st id st' :
  OloId.new uri options st = (Some id, st') ->
  NoDup (id_syntax id) ->
  filter plain_name (obj_keys (id_uri id)) = filter plain_name (id_syntax id).
Proof.
  intros H Hnd. destruct (OloId_new_inv _ _ _ _ _ H) as (_ & Hundef & Hfill).
  destruct uri; try (rewrite Hfill by discriminate;
                     rewrite fill_with_names; rewrite indexed_snd; auto).
  destruct (Hundef eq_refl) as [-> ->]. reflexivity.
Qed.

(** X6. The value map of an identifier has no key twice; its keys are the
    names of its syntax, [__proto__] apart, which is never stored.  They
    are listed as JavaScript lists them: the names that are array indices
    first, in ascending order, then the others, which for a syntax
    without repetition come in the order of the syntax.  When in addition
    no name is an array index or [__proto__], the keys are the syntax. *)
Theorem value_map_has_the_names_of_the_syntax uri options st id st' :
  OloId.new uri options st = (Some id, st') ->
  NoDup (obj_keys (OloId.toJSON id)) /\
  (forall k, In k (obj_keys (OloId.toJSON id)) <-> In k (id_syntax id) /\ k <> "__proto__") /\
  enumerated (obj_keys (OloId.toJSON id)) /\
  (NoDup (id_syntax id) ->
   filter plain_name (obj_keys (OloId.toJSON id)) = filter plain_name (id_syntax id)) /\
  (NoDup (id_syntax id) -> forallb plain_name (id_syntax id) = true ->
   obj_keys (OloId.toJSON id) = id_syntax id).
Proof.
  intros H. unfold OloId.toJSON.
  pose proof (OloId_new_keys _ _ _ _ _ H) as Hkeys.
  split; [|split; [|split; [|split]]].
  - eapply OloId_new_nodup_keys; eauto.
  - exact Hkeys.
  - eapply OloId_new_enumerated; eauto.
  - now apply (OloId_new_names _ _ _ _ _ H).
  - intros Hnd Hall.
    rewrite <- (forallb_filter_id plain_name (id_syntax id) Hall).
    rewrite <- (OloId_new_names _ _ _ _ _ H Hnd).
    symmetry. apply forallb_filter_id, forallb_forall. intros k Hk.
    apply Hkeys in Hk. destruct Hk as [Hk _].
    now apply (proj1 (forallb_forall _ _) Hall).
Qed.

Lemma value_map_has_the_names_of_the_syntax_witness :
  let id := mkOloId (Some "/") ["b"; "2"; "a"; "1"]
                    [("1", VStr "z"); ("2", VStr "x"); ("b", VStr "w"); ("a", VStr "y")] in
  NoDup (obj_keys (OloId.toJSON id)) /\
  (forall k, In k (obj_keys (OloId.toJSON id)) <-> In k (id_syntax id) /\ k <> "__proto__") /\
  enumerated (obj_keys (OloId.toJSON id)) /\
  (NoDup (id_syntax id) ->
   filter plain_name (obj_keys (OloId.toJSON id)) = filter plain_name (id_syntax id)) /\
  (NoDup (id_syntax id) -> forallb plain_name (id_syntax id) = true ->
   obj_keys (OloId.toJSON id) = id_syntax id).
Proof.
  apply (value_map_has_the_names_of_the_syntax
           (OloId.SrcString "w/x/y/z") (with_syntax ["b"; "2"; "a"; "1"]) fresh _
           (mkRegistry (Some "/") ["UNDEFINED"]) eq_refl).
Defined.

(** ** An identifier and its own string *)

(** X7. An identifier whose values are all strings is the same as its own
    [toString], when it has a single name, or when its separator is one
    character that none of its values contains. *)
Theorem identifier_is_same_as_its_string uri options st id st' :
  OloId.new uri options st = (Some id, st') ->
  (forall k, In k (id_syntax id) -> exists v, get (OloId.toJSON id) k = VStr v) ->
  (List.length (id_syntax id) = 1 \/
   exists c, id_separator id = Some (String c "") /\
             forall k v, In k (id_syntax id) -> get (OloId.toJSON id) k = VStr v ->
                         includes (String c "") v = false) ->
  OloId.isSame id (CString (OloId.toString id None)) None = true.
Proof.
  intros Hnew Hstr Hcase. unfold OloId.toJSON in *.
  apply (isSame_syntax _ _ _ _ _ (CString (OloId.toString id None)) None Hnew).
  intros k Hk Hproto. unfold OloId.compId, OloId.syntaxList, OloId.toJSON. f_equal.
  rewrite parse_fill. unfold get at 1.
  destruct (Hstr k Hk) as [v Hv].
  rewrite (fill_with_get _ _ _ _ k (VStr v)).
  - now rewrite Hv.
  - now rewrite indexed_snd.
  - exact Hproto.
  - intros [i k'] Hin Hk'. simpl in Hk'. subst k'. apply indexed_in in Hin. cbn [fst].
    f_equal. destruct Hcase as [Hone|[c [Hsep Hfree]]].
    + rewrite Hone. cbn [Nat.eqb].
      destruct (id_syntax id) as [|k0 [|k1 rest]] eqn:Esyn; try discriminate.
      destruct Hk as [<-|[]].
      unfold OloId.toString, OloId.values, join. rewrite Esyn. cbn [map String.concat].
      now rewrite Hv.
    + destruct (Nat.eqb_spec (List.length (id_syntax id)) 1) as [Hone|Hmany].
      * destruct (id_syntax id) as [|k0 [|k1 rest]] eqn:Esyn; try discriminate.
        destruct Hk as [<-|[]].
        unfold OloId.toString, OloId.values, join. rewrite Esyn. cbn [map String.concat].
        now rewrite Hv.
      * unfold OloId.toString. rewrite Hsep. rewrite split_join.
        -- apply values_at in Hin. apply (map_nth_error to_string) in Hin.
           unfold OloId.segment_or_empty. now rewrite Hin, Hv.
        -- unfold OloId.values. destruct (id_syntax id); [destruct Hk|discriminate].
        -- intros u Hu. unfold OloId.values in Hu. rewrite map_map in Hu.
           apply in_map_iff in Hu. destruct Hu as [k' [<- Hk']].
           destruct (Hstr k' Hk') as [v' Hv']. rewrite Hv'. simpl.
           now apply (Hfree k' v').
Qed.

Lemma identifier_is_same_as_its_string_witness :
  OloId.isSame id_user_123 (CString (OloId.toString id_user_123 None)) None = true.
Proof.
  apply (identifier_is_same_as_its_string
           (OloId.SrcString "user/123") (with_syntax ["type"; "id"]) fresh id_user_123
           (mkRegistry (Some "/") ["UNDEFINED"]) eq_refl).
  - intros k [<-|[<-|[]]]; eexists; reflexivity.
  - right. exists "/"%char. split; [reflexivity|].
    intros k v [<-|[<-|[]]] [= <-]; reflexivity.
Defined.

(** ** Identifiers over the same names *)

Lemma isSame_id_iff uri options st a st' b :
  OloId.new uri options st = (Some a, st') ->
  OloId.isSame a (CId b) None = true <->
  (forall k, In k (id_syntax a) -> k <> "__proto__" -> get (id_uri b) k = get (id_uri a) k).
Proof.
  intros Ha. rewrite (isSame_syntax _ _ _ _ _ (CId b) None Ha).
  unfold OloId.compId, OloId.toJSON.
  split; intros H k Hk Hp; specialize (H k Hk Hp); congruence.
Qed.

(** X8. Among identifiers over the same names [isSame] is an equivalence:
    every identifier is the same as itself, two identifiers with the same
    names agree on whether they are the same, and sameness carries over
    from a second identifier to a third when the second has the names of
    the first. *)
Theorem isSame_is_an_equivalence_over_the_same_names :
  (forall a, OloId.isSame a (CId a) None = true) /\
  (forall ua oa sa a sa' ub ob sb b sb',
      OloId.new ua oa sa = (Some a, sa') ->
      OloId.new ub ob sb = (Some b, sb') ->
      (forall k, In k (id_syntax a) <-> In k (id_syntax b)) ->
      OloId.isSame a (CId b) None = OloId.isSame b (CId a) None) /\
  (forall ua oa sa a sa' ub ob sb b sb' c,
      OloId.new ua oa sa = (Some a, sa') ->
      OloId.new ub ob sb = (Some b, sb') ->
      incl (id_syntax a) (id_syntax b) ->
      OloId.isSame a (CId b) None = true ->
      OloId.isSame b (CId c) None = true ->
      OloId.isSame a (CId c) None = true).
Proof.
  split; [|split].
  - intros a. apply isSame_keys. reflexivity.
  - intros ua oa sa a sa' ub ob sb b sb' Ha Hb Hnames.
    apply eq_true_iff_eq.
    rewrite (isSame_id_iff _ _ _ _ _ b Ha), (isSame_id_iff _ _ _ _ _ a Hb).
    split; intros H k Hk Hp; symmetry; apply H; auto; now apply Hnames.
  - intros ua oa sa a sa' ub ob sb b sb' c Ha Hb Hincl Hab Hbc.
    apply (isSame_id_iff _ _ _ _ _ c Ha). intros k Hk Hp.
    pose proof (proj1 (isSame_id_iff _ _ _ _ _ b Ha) Hab k Hk Hp) as H1.
    pose proof (proj1 (isSame_id_iff _ _ _ _ _ c Hb) Hbc k (Hincl k Hk) Hp) as H2.
    congruence.
Qed.

Lemma isSame_is_an_equivalence_over_the_same_names_witness :
  OloId.isSame id_user_123 (CId id_user_123) None = true /\
  OloId.isSame id_type_id (CId (mkOloId (Some "/") ["type"; "id"]
                                        [("type", VStr "user"); ("id", VStr "1")])) None
  = OloId.isSame (mkOloId (Some "/") ["type"; "id"] [("type", VStr "user"); ("id", VStr "1")])
                 (CId id_type_id) None /\
  OloId.isSame id_type (CId (mkOloId (Some "/") ["type"; "id"]
                                     [("type", VStr "user"); ("id", VStr "1")])) None = true.
Proof.
  destruct isSame_is_an_equivalence_over_the_same_names as (Hrefl & Hsym & Htrans).
  split; [|split].
  - apply Hrefl.
  - apply (Hsym (OloId.SrcUri [("type", VStr "user"); ("id", VStr "1")]) no_options fresh
                id_type_id (mkRegistry (Some "/") ["UNDEFINED"])
                (OloId.SrcString "user/1") (with_syntax ["type"; "id"]) fresh _
                (mkRegistry (Some "/") ["UNDEFINED"]) eq_refl eq_refl).
    intros k. simpl. tauto.
  - apply (Htrans (OloId.SrcUri [("type", VStr "user")]) no_options fresh id_type
                  (mkRegistry (Some "/") ["UNDEFINED"])
                  (OloId.SrcUri [("type", VStr "user"); ("id", VStr "1")]) no_options fresh
                  id_type_id (mkRegistry (Some "/") ["UNDEFINED"]) _
                  eq_refl eq_refl).
    + intros k [<-|[]]. simpl; auto.
    + reflexivity.
    + reflexivity.
Defined.

(** ** Copies *)

Lemma sort_insert_In x y l : In x (sort_insert y l) <-> x = y \/ In x l.
Proof.
  induction l as [|z l IH]; simpl.
  - intuition.
  - destruct (String.leb y z); simpl; [intuition|]. rewrite IH. intuition.
Qed.

Lemma sort_In x l : In x (sort l) <-> In x l.
Proof.
  unfold sort. induction l as [|y l IH]; simpl; [tauto|].
  rewrite sort_insert_In, IH. intuition.
Qed.

Lemma normSyntax_uri_In st uri k :
  In k (OloIdSyntax.normSyntax st (Some (SynUri uri))) <-> In k (obj_keys uri) /\ k <> "".
Proof.
  unfold OloIdSyntax.normSyntax. rewrite filter_In, sort_In.
  split; intros [H1 H2]; split; auto.
  - intros ->. discriminate.
  - now destruct (String.eqb_spec k "").
Qed.

(** The syntax of a new identifier is the first that [getSyntaxes]
    returns. *)
Lemma OloId_new_syntax uri options st id st' :
  OloId.new uri options st = (Some id, st') ->
  exists rest,
    OloIdSyntax.getSyntaxes
      (match opt_syntax options with
       | Some s => Some s
       | None => option_map SynUri (workingUri_of uri)
       end)
      (opt_register options) (OloIdSyntax.new None None st)
    = (id_syntax id :: rest, st').
Proof.
  unfold OloId.new.
  replace (match uri with
           | OloId.SrcId id0 => Some (OloId.toJSON id0)
           | OloId.SrcUri u => Some u
           | _ => None
           end) with (workingUri_of uri) by (destruct uri; reflexivity).
  destruct (OloIdSyntax.getSyntaxes _ _ _) as [found st2].
  destruct found as [|syntax rest]; [discriminate|].
  destruct (OloId.forEach_throws uri syntax); [discriminate|].
  intros [= <- <-]. now exists rest.
Qed.

(** X9. An identifier built from another one, without a stated syntax,
    has names of the original only, holds the original's value for each
    of them, and finds the original the same.  The value map of the
    original has a key that is not the empty string. *)
Theorem copy_holds_the_values_of_the_original
        uri0 options0 st0 id st1 register sep st copy st' :
  OloId.new uri0 options0 st0 = (Some id, st1) ->
  (exists k, In k (obj_keys (OloId.toJSON id)) /\ k <> "") ->
  OloId.new (OloId.SrcId id) (mkOptions None register sep) st = (Some copy, st') ->
  (forall k, In k (id_syntax copy) ->
             In k (id_syntax id) /\
             obj_get k (OloId.toJSON copy) = obj_get k (OloId.toJSON id)) /\
  OloId.isSame copy (CId id) None = true.
Proof.
  intros Hid [k0 [Hk0 Hk0ne]] Hcopy. unfold OloId.toJSON in *.
  assert (Hvals : forall k, In k (id_syntax copy) ->
                            In k (id_syntax id) /\
                            obj_get k (id_uri copy) = obj_get k (id_uri id)).
  { destruct (OloId_new_syntax _ _ _ _ _ Hcopy) as [rest Hget].
    cbn [opt_syntax opt_register workingUri_of option_map] in Hget.
    assert (Hne : OloIdSyntax.normSyntax (OloIdSyntax.new None None st)
                                         (Some (SynUri (OloId.toJSON id))) <> []).
    { intros Hnil.
      assert (Hin : In k0 (OloIdSyntax.normSyntax (OloIdSyntax.new None None st)
                                                  (Some (SynUri (OloId.toJSON id))))).
      { apply normSyntax_uri_In. split; auto. }
      rewrite Hnil in Hin. destruct Hin. }
    destruct (getSyntaxes_shape _ register _ Hne) as [t (Hfst & Hincl & _)].
    rewrite Hget in Hfst. cbn [fst] in Hfst. injection Hfst as Ht _. subst t.
    intros k Hkc. pose proof (Hincl k Hkc) as Hk.
    apply normSyntax_uri_In in Hk. destruct Hk as [Hk _].
    apply (OloId_new_keys _ _ _ _ _ Hid) in Hk. destruct Hk as [Hk Hproto]. split; auto.
    destruct (OloId_new_truthy _ _ _ _ _ Hid k Hk Hproto) as [v [Hv Ht]].
    destruct (OloId_new_inv _ _ _ _ _ Hcopy) as (_ & _ & Hfill).
    rewrite Hfill by discriminate. rewrite Hv.
    apply fill_with_get; auto.
    - now rewrite indexed_snd.
    - intros [i q] _ Hq. simpl in Hq. subst q. cbn [stored snd].
      unfold OloId.toJSON, get. rewrite Hv. unfold or_else. now rewrite Ht. }
  split; auto.
  apply (isSame_id_iff _ _ _ _ _ id Hcopy). intros k Hk _.
  destruct (Hvals k Hk) as [_ Heq]. unfold get. now rewrite Heq.
Qed.

Lemma copy_holds_the_values_of_the_original_witness :
  OloId.isSame (mkOloId (Some "/") ["id"; "type"] [("id", VStr "123"); ("type", VStr "user")])
               (CId id_user_123) None = true.
Proof.
  apply (copy_holds_the_values_of_the_original
           (OloId.SrcString "user/123") (with_syntax ["type"; "id"]) fresh id_user_123
           (mkRegistry (Some "/") ["UNDEFINED"]) false None
           (mkRegistry (Some "/") ["UNDEFINED"]) _
           (mkRegistry (Some "/") ["UNDEFINED"]) eq_refl).
  - exists "type". split; [simpl; auto|discriminate].
  - reflexivity.
Defined.

(** An identifier whose only name is [__proto__] has an empty value map;
    its copy is built as from an empty object and takes the first
    registered syntax. *)
Example copy_of_an_empty_value_map :
  fst (OloId.new (OloId.SrcUri []) (with_syntax ["__proto__"]) fresh)
  = Some (mkOloId (Some "/") ["__proto__"] []) /\
  fst (OloId.new (OloId.SrcId (mkOloId (Some "/") ["__proto__"] [])) no_options
                 (mkRegistry (Some "/") ["UNDEFINED"]))
  = Some (mkOloId (Some "/") ["UNDEFINED"] [("UNDEFINED", VStr "UNDEFINED")]).
Proof. split; reflexivity. Qed.

(** ** Sets with one member, and with none *)

Lemma obj_set_nil {A} (k : string) (v : A) :
  obj_set k v [] = if String.eqb k "__proto__" then [] else [(k, v)].
Proof.
  unfold obj_set. simpl. destruct (String.eqb k "__proto__"); auto.
  now destruct (array_index k).
Qed.

(** The value map of an identifier is what assigning its entries to an
    empty object gives. *)
Lemma OloId_new_assign uri options st id st' :
  OloId.new uri options st = (Some id, st') -> obj_assign [] (id_uri id) = id_uri id.
Proof.
  intros H. apply (obj_assign_onto [] (id_uri id)); simpl.
  - eapply OloId_new_nodup_keys; eauto.
  - eapply OloId_new_no_proto; eauto.
  - eapply OloId_new_enumerated; eauto.
Qed.

(** A set with one member has the string, the value map and the
    comparisons of that member. *)
Lemma singleton_set key id :
  obj_assign [] (id_uri id) = id_uri id ->
  OloIdSet.toString (mkOloIdSet [(key, id)]) = OloId.toString id None /\
  OloIdSet.toJSON (mkOloIdSet [(key, id)]) = OloId.toJSON id /\
  forall x syntax,
    OloIdSet.isSame (mkOloIdSet [(key, id)]) x syntax
    = OloId.isSame id (comparand_view x) syntax.
Proof.
  intros Hassign. split; [|split].
  - reflexivity.
  - unfold OloIdSet.toJSON, OloIdSet.merge. cbn [set_uri obj_values map snd fold_left].
    exact Hassign.
  - intros x syntax. unfold OloIdSet.isSame. cbn [set_uri obj_values map snd fold_left orb].
    apply isSame_normalize.
Qed.

Lemma OloId_new_some uri options st :
  uri <> OloId.SrcUndefined ->
  OloIdSyntax.normSyntax (OloIdSyntax.new None None st)
                         (match opt_syntax options with
                          | Some s => Some s
                          | None => option_map SynUri (workingUri_of uri)
                          end) <> [] ->
  exists id, fst (OloId.new uri options st) = Some id.
Proof.
  intros Hu Hne. unfold OloId.new.
  replace (match uri with
           | OloId.SrcId id0 => Some (OloId.toJSON id0)
           | OloId.SrcUri u => Some u
           | _ => None
           end) with (workingUri_of uri) by (destruct uri; reflexivity).
  destruct (getSyntaxes_shape _ (opt_register options) _ Hne) as [t (Hfst & _)].
  destruct (OloIdSyntax.getSyntaxes _ _ _) as [found st2]. cbn [fst] in Hfst. subst found.
  destruct uri; try congruence; simpl; eauto.
Qed.

Lemma OloId_new_uri_value m options st id st' p :
  OloId.new (OloId.SrcUri m) options st = (Some id, st') ->
  In p (id_syntax id) ->
  p <> "__proto__" ->
  obj_get p (id_uri id) = Some (or_else (get m p) (VStr ID_PROP_UNDEFINED)).
Proof.
  intros Hnew Hp Hproto. destruct (OloId_new_inv _ _ _ _ _ Hnew) as (_ & _ & Hfill).
  rewrite Hfill by discriminate. apply fill_with_get; auto.
  - now rewrite indexed_snd.
  - intros [i q] _ Hq. simpl in Hq. now subst q.
Qed.

Lemma OloIdSet_new_from_value_map uri m options st :
  set_workingUri_of uri = Some m -> m <> [] ->
  OloIdSet.new uri options st = OloIdSet.new (OloIdSet.SrcUri m) options st.
Proof.
  destruct uri as [s|u|ids|other]; simpl; try discriminate.
  - now intros [= ->].
  - intros [= <-] Hne. unfold OloIdSet.new, OloIdSet.toJSON in *.
    destruct (OloIdSet.merge (set_uri other)); [contradiction|reflexivity].
Qed.

(** X10. A set built from a value map, or copied from another set, has
    at most one member as soon as the map (for a set: its merged value
    map) has a key other than the empty string: the one identifier built
    from the whole map, kept under its syntax string unless that string
    is [__proto__], which an assignment does not store.  The member holds
    the values of the map; the string, the value map and the comparisons
    of a set of that one member are those of the member. *)
Theorem set_from_value_map_has_one_member
        (uri : OloIdSet.Source) (m : Obj Value) (options : OloIdOptions) (st : Registry) :
  set_workingUri_of uri = Some m ->
  (exists k, In k (obj_keys m) /\ k <> "") ->
  exists id,
    fst (OloIdSet.new uri options st)
    = Some (mkOloIdSet (if String.eqb (OloId.toSyntaxString id None) "__proto__" then []
                        else [(OloId.toSyntaxString id None, id)])) /\
    (forall p, In p (id_syntax id) -> p <> "__proto__" ->
               obj_get p (OloId.toJSON id)
               = Some (or_else (get m p) (VStr ID_PROP_UNDEFINED))) /\
    OloIdSet.toString (mkOloIdSet [(OloId.toSyntaxString id None, id)])
    = OloId.toString id None /\
    OloIdSet.toJSON (mkOloIdSet [(OloId.toSyntaxString id None, id)]) = OloId.toJSON id /\
    forall x syntax,
      OloIdSet.isSame (mkOloIdSet [(OloId.toSyntaxString id None, id)]) x syntax
      = OloId.isSame id (comparand_view x) syntax.
Proof.
  intros Hm [k [Hk Hkne]].
  rewrite (OloIdSet_new_from_value_map uri m) by (auto; intros ->; destruct Hk).
  clear uri Hm.
  destruct m as [|kv u]; [destruct Hk|]. unfold OloIdSet.new.
  set (st1 := OloIdSyntax.new None None st).
  set (m := kv :: u) in *.
  assert (Hne : OloIdSyntax.normSyntax st1 (Some (SynUri m)) <> []).
  { intros Hnil. assert (Hin : In k (OloIdSyntax.normSyntax st1 (Some (SynUri m))))
      by (apply normSyntax_uri_In; auto).
    rewrite Hnil in Hin. destruct Hin. }
  destruct (getSyntaxes_shape _ (opt_register options) _ Hne) as [t (Hfst & Hincl & Hlen)].
  destruct (OloIdSyntax.getSyntaxes (Some (SynUri m)) (opt_register options) st1)
    as [found st2]. cbn [fst] in Hfst. subst found.
  cbn [fold_left]. unfold OloIdSet.interpret. cbn [fst snd].
  assert (Hnames : forall n, In n t -> n <> "")
    by (intros n Hn; eapply normSyntax_no_empty; apply Hincl; exact Hn).
  assert (Ht : t <> []).
  { intros ->. simpl in Hlen. symmetry in Hlen. apply length_zero_iff_nil in Hlen. contradiction. }
  destruct (OloId_new_some (OloId.SrcUri m)
                           (mkOptions (Some (SynArray t)) false (opt_separator options)) st2)
    as [id Hid]; [discriminate| |].
  { cbn [opt_syntax]. now rewrite normSyntax_array. }
  destruct (OloId.new (OloId.SrcUri m) _ st2) as [built st3] eqn:Hnew.
  cbn [fst] in Hid. subst built. exists id.
  split; [cbn [fst option_map]; now rewrite obj_set_nil|]. split.
  - intros p Hp Hproto. now apply (OloId_new_uri_value _ _ _ _ _ _ Hnew).
  - apply singleton_set. eapply OloId_new_assign; eauto.
Qed.

Lemma set_from_value_map_has_one_member_witness :
  exists id,
    fst (OloIdSet.new (OloIdSet.SrcSet pair_set) no_options fresh)
    = Some (mkOloIdSet (if String.eqb (OloId.toSyntaxString id None) "__proto__" then []
                        else [(OloId.toSyntaxString id None, id)])) /\
    (forall p, In p (id_syntax id) -> p <> "__proto__" ->
               obj_get p (OloId.toJSON id)
               = Some (or_else (get [("type", VStr "user"); ("id", VStr "123")] p)
                               (VStr ID_PROP_UNDEFINED))) /\
    OloIdSet.toString (mkOloIdSet [(OloId.toSyntaxString id None, id)])
    = OloId.toString id None /\
    OloIdSet.toJSON (mkOloIdSet [(OloId.toSyntaxString id None, id)]) = OloId.toJSON id /\
    forall x syntax,
      OloIdSet.isSame (mkOloIdSet [(OloId.toSyntaxString id None, id)]) x syntax
      = OloId.isSame id (comparand_view x) syntax.
Proof.
  apply (set_from_value_map_has_one_member (OloIdSet.SrcSet pair_set)
           [("type", VStr "user"); ("id", VStr "123")] no_options fresh).
  - reflexivity.
  - exists "type". split; [simpl; auto|discriminate].
Defined.

(** A value map that owns the key [__proto__] alone, as [JSON.parse]
    gives it: the identifier is built, and the assignment that would keep
    it under its syntax string stores nothing. *)
Example set_from_a_map_owning_proto :
  fst (OloIdSet.new (OloIdSet.SrcUri [("__proto__", VStr "x")]) no_options fresh)
  = Some (mkOloIdSet []) /\
  fst (OloId.new (OloId.SrcUri [("__proto__", VStr "x")])
                 (with_syntax ["__proto__"]) (mkRegistry (Some "/") ["UNDEFINED"]))
  = Some (mkOloId (Some "/") ["__proto__"] []).
Proof. split; reflexivity. Qed.

(** X11. The empty value map gives a set without members, whatever the
    options; such a set prints as the empty string, has the empty value
    map and is the same as nothing, itself included. *)
Theorem empty_value_map_gives_a_set_of_nothing :
  (forall options st,
      fst (OloIdSet.new (OloIdSet.SrcUri []) options st) = Some (mkOloIdSet [])) /\
  OloIdSet.toString (mkOloIdSet []) = "" /\
  OloIdSet.toJSON (mkOloIdSet []) = [] /\
  (forall x syntax, OloIdSet.isSame (mkOloIdSet []) x syntax = false).
Proof. repeat split. Qed.

(** X12. A set built from a string holds the one identifier that the
    constructor of [OloId] builds from that string and those options; its
    string, its value map and its comparisons are those of the
    identifier. *)
Theorem set_from_string_is_its_identifier s options st set st' :
  OloIdSet.new (OloIdSet.SrcString s) options st = (Some set, st') ->
  exists id,
    OloId.new (OloId.SrcString s) options (OloIdSyntax.new None None st) = (Some id, st') /\
    set_uri set = [(OloId.toSyntaxString id None, id)] /\
    OloIdSet.toString set = OloId.toString id None /\
    OloIdSet.toJSON set = OloId.toJSON id /\
    forall x syntax,
      OloIdSet.isSame set x syntax = OloId.isSame id (comparand_view x) syntax.
Proof.
  unfold OloIdSet.new.
  destruct (OloId.new (OloId.SrcString s) options (OloIdSyntax.new None None st))
    as [[id|] st2] eqn:Hnew; [|discriminate].
  intros [= <- <-]. exists id. split; [reflexivity|]. split; [reflexivity|].
  apply singleton_set. eapply OloId_new_assign; eauto.
Qed.

Lemma set_from_string_is_its_identifier_witness :
  exists id,
    OloId.new (OloId.SrcString "value1/value2") (with_syntax ["type1"; "type2"])
              (OloIdSyntax.new None None fresh)
    = (Some id, mkRegistry (Some "/") ["UNDEFINED"]) /\
    set_uri idSet1 = [(OloId.toSyntaxString id None, id)] /\
    OloIdSet.toString idSet1 = OloId.toString id None /\
    OloIdSet.toJSON idSet1 = OloId.toJSON id /\
    forall x syntax,
      OloIdSet.isSame idSet1 x syntax = OloId.isSame id (comparand_view x) syntax.
Proof.
  apply (set_from_string_is_its_identifier "value1/value2" (with_syntax ["type1"; "type2"])
                                           fresh idSet1 (mkRegistry (Some "/") ["UNDEFINED"])).
  reflexivity.
Defined.

Lemma obj_get_nodup_in {A} k (v : A) (o : Obj A) :
  NoDup (obj_keys o) -> In (k, v) o -> obj_get k o = Some v.
Proof.
  unfold obj_keys. induction o as [|[k' v'] o IH]; simpl; intros Hnd Hin; [destruct Hin|].
  inversion Hnd as [|? ? Hk Hnd']; subst.
  destruct Hin as [[= -> ->]|Hin].
  - now rewrite String.eqb_refl.
  - destruct (String.eqb_spec k k') as [->|_].
    + exfalso. apply Hk. now apply (in_map fst) in Hin.
    + now apply IH.
Qed.

Lemma obj_assign_fill {A} (target source : Obj A) :
  obj_assign target source = fill_with fst snd source target.
Proof. reflexivity. Qed.

Lemma obj_assign_get_source {A} (target source : Obj A) k v :
  k <> "__proto__" ->
  NoDup (obj_keys source) -> obj_get k source = Some v ->
  obj_get k (obj_assign target source) = Some v.
Proof.
  intros Hp Hnd Hget. rewrite obj_assign_fill. apply fill_with_get; auto.
  - apply obj_get_in_keys. eauto.
  - intros [k' v'] Hin Hk. simpl in *. subst k'.
    rewrite (obj_get_nodup_in _ _ _ Hnd Hin) in Hget. congruence.
Qed.

Lemma obj_assign_get_target {A} (target source : Obj A) k :
  obj_get k source = None ->
  obj_get k (obj_assign target source) = obj_get k target.
Proof.
  intros Hnone. rewrite obj_assign_fill. apply fill_with_get_other.
  now apply obj_get_not_in_keys.
Qed.

Lemma obj_assign_keys {A} (target source : Obj A) k :
  In k (obj_keys (obj_assign target source))
  <-> In k (obj_keys target) \/ (In k (obj_keys source) /\ k <> "__proto__").
Proof. rewrite obj_assign_fill, fill_with_keys. unfold obj_keys. tauto. Qed.

Lemma merge_fold_keys (ids : list OloId) (json : Obj Value) k :
  In k (obj_keys (fold_left (fun json id => obj_assign json (id_uri id)) ids json))
  <-> In k (obj_keys json)
      \/ (k <> "__proto__" /\ exists id, In id ids /\ In k (obj_keys (id_uri id))).
Proof.
  revert json. induction ids as [|a ids IH]; intros json; simpl.
  - split; [auto|]. intros [H|[_ [id [[] _]]]]. exact H.
  - rewrite IH, obj_assign_keys. split.
    + intros [[H|[H Hp]]|[Hp [id [Hin Hk]]]]; eauto 7.
    + intros [H|[Hp [id [[->|Hin] Hk]]]]; eauto 7.
Qed.

Lemma merge_fold_untouched (ids : list OloId) (json : Obj Value) k :
  (forall id, In id ids -> obj_get k (id_uri id) = None) ->
  obj_get k (fold_left (fun json id => obj_assign json (id_uri id)) ids json)
  = obj_get k json.
Proof.
  revert json. induction ids as [|a ids IH]; intros json H; simpl; auto.
  rewrite IH by (intros id Hin; apply H; simpl; auto).
  apply obj_assign_get_target. apply H. simpl. auto.
Qed.

(** X13. The value map of a set has the keys of its members' maps,
    [__proto__] apart, and where members share a key the value is that of
    the last of them in the order in which [Object.values] lists the
    members: those under array-index keys first, in ascending order, then
    the others in the order of their insertion.  So a member inserted
    earlier can be the one that gives the value. *)
Theorem merged_map_takes_the_last_value :
  (forall (set : OloIdSet) k,
      In k (obj_keys (OloIdSet.toJSON set))
      <-> k <> "__proto__" /\
          exists id, In id (obj_values (set_uri set)) /\ In k (obj_keys (OloId.toJSON id))) /\
  (forall (before after : Obj OloId) key member k v,
      k <> "__proto__" ->
      NoDup (obj_keys (OloId.toJSON member)) ->
      obj_get k (OloId.toJSON member) = Some v ->
      (forall later, In later (obj_values after) -> obj_get k (OloId.toJSON later) = None) ->
      obj_get k (OloIdSet.toJSON (mkOloIdSet (before ++ (key, member) :: after)%list)) = Some v) /\
  (let st := OloIdSyntax.new (Some []) (Some "0") fresh in
   let a := mkOloId (Some "/") ["t"] [("t", VStr "a")] in
   let b := mkOloId (Some "/") ["t"] [("t", VStr "b")] in
   let c := mkOloId (Some "/") ["t"] [("t", VStr "c")] in
   exists set,
     fst (OloIdSet.new (OloIdSet.SrcMap [("101", a); ("222", b); ("1/1", c)])
                       (mkOptions None false (Some "/")) st) = Some set /\
     fst (OloIdSet.resolve_keys false ["101"; "222"; "1/1"] (OloIdSyntax.new None None st))
     = [["1"; "1"]; ["222"]; ["1/1"]] /\
     set_uri set = [("222", b); ("1/1", c)] /\
     OloIdSet.toJSON set = [("t", VStr "c")]).
Proof.
  split; [|split].
  - intros set k. unfold OloIdSet.toJSON, OloIdSet.merge. rewrite merge_fold_keys.
    split; [intros [[]|H]; exact H|auto].
  - intros before after key member k v Hp Hnd Hget Hafter.
    unfold OloIdSet.toJSON, OloIdSet.merge, obj_values. cbn [set_uri].
    rewrite map_app. cbn [map snd]. rewrite fold_left_app. cbn [fold_left].
    rewrite merge_fold_untouched by exact Hafter.
    now apply obj_assign_get_source.
  - cbv zeta. eexists. split; [reflexivity|]. repeat split.
Qed.

Lemma merged_map_takes_the_last_value_witness :
  obj_get "type"
          (OloIdSet.toJSON
             (mkOloIdSet ([("user", id_type)]
                          ++ ("group", mkOloId (Some "/") ["type"] [("type", VStr "group")])
                          :: [("7", mkOloId (Some "/") ["id"] [("id", VStr "7")])])%list))
  = Some (VStr "group").
Proof.
  apply (proj1 (proj2 merged_map_takes_the_last_value) [("user", id_type)]
               [("7", mkOloId (Some "/") ["id"] [("id", VStr "7")])] "group"
               (mkOloId (Some "/") ["type"] [("type", VStr "group")]) "type" (VStr "group")).
  - discriminate.
  - repeat constructor; simpl; intuition discriminate.
  - reflexivity.
  - intros later [<-|[]]. reflexivity.
Defined.

(** ** When the constructor of [OloId] throws *)

Lemma getSyntaxes_empty_iff syntax register st :
  fst (OloIdSyntax.getSyntaxes syntax register st) = []
  <-> OloIdSyntax.normSyntax st syntax = [] /\ syntaxes st = [].
Proof.
  unfold OloIdSyntax.getSyntaxes.
  destruct (OloIdSyntax.normSyntax st syntax) as [|n names] eqn:Hnorm; cbn [List.length Nat.eqb].
  - cbn [fst]. unfold OloIdSyntax.getSyntaxMatrix. split.
    + intros H. split; auto. now apply map_eq_nil in H.
    + intros [_ ->]. reflexivity.
  - split; [|intros [H _]; discriminate].
    destruct (find _ _); [discriminate|]. destruct register; discriminate.
Qed.

(** X14. Handed a string, a value map or an [OloId], the constructor of
    [OloId] throws exactly when no name is asked for and the registry is
    empty once the constructor has registered the sentinel again; so it
    never throws while the separator is the default one or not yet
    set. *)
Theorem constructor_throws_on_an_empty_registry
        (uri : OloId.Source) (options : OloIdOptions) (st : Registry) :
  uri <> OloId.SrcUndefined ->
  (fst (OloId.new uri options st) = None
   <-> OloIdSyntax.normSyntax (OloIdSyntax.new None None st)
                              (match opt_syntax options with
                               | Some s => Some s
                               | None => option_map SynUri (workingUri_of uri)
                               end) = []
       /\ syntaxes (OloIdSyntax.new None None st) = []) /\
  (separator st = None \/ separator st = Some ID_TYPE_SEPARATOR ->
   fst (OloId.new uri options st) <> None).
Proof.
  intros Hu. split.
  - rewrite <- (getSyntaxes_empty_iff _ (opt_register options)).
    unfold OloId.new.
    replace (match uri with
             | OloId.SrcId id0 => Some (OloId.toJSON id0)
             | OloId.SrcUri u => Some u
             | _ => None
             end) with (workingUri_of uri) by (destruct uri; reflexivity).
    destruct (OloIdSyntax.getSyntaxes _ _ _) as [[|t found] st2]; cbn [fst].
    + tauto.
    + replace (OloId.forEach_throws uri t) with false by (destruct uri, t; try reflexivity; congruence).
      cbn [fst]. split; discriminate.
  - intros Hsep. destruct (OloId_new_succeeds_default uri options st Hu Hsep) as [id ->].
    discriminate.
Qed.

Lemma constructor_throws_on_an_empty_registry_witness :
  fst (OloId.new (OloId.SrcString "a") no_options (mkRegistry (Some "UNDEFINED") [])) = None.
Proof.
  apply (proj1 (constructor_throws_on_an_empty_registry
                  (OloId.SrcString "a") no_options (mkRegistry (Some "UNDEFINED") [])
                  ltac:(discriminate))).
  split; reflexivity.
Defined.

(** ** The sentinel at a registration *)

(** X15. When the last syntax handed to [registerSyntaxes] has names and
    is not the sentinel, it is in the registry afterwards and the sentinel
    is not. *)
Theorem sentinel_leaves_with_a_registration
        (l : list SyntaxArg) (syntax : SyntaxArg) (st : Registry) :
  OloIdSyntax.normSyntax st (Some syntax) <> [] ->
  join (separator st) (OloIdSyntax.normSyntax st (Some syntax)) <> ID_TYPE_UNDEFINED ->
  let st' := snd (OloIdSyntax.registerSyntaxes (l ++ [syntax]) st) in
  In (join (separator st) (OloIdSyntax.normSyntax st (Some syntax))) (syntaxes st') /\
  ~ In ID_TYPE_UNDEFINED (syntaxes st').
Proof.
  intros Hne Hjoin. unfold OloIdSyntax.registerSyntaxes. cbn [snd syntaxes].
  rewrite fold_left_app. cbn [fold_left].
  set (prev := fold_left (OloIdSyntax.register_one st) l (syntaxes st)). clearbody prev.
  unfold OloIdSyntax.register_one.
  destruct (OloIdSyntax.normSyntax st (Some syntax)) as [|n names] eqn:Hnorm; [congruence|].
  cbn [List.length Nat.ltb Nat.leb]. split.
  - apply set_add_In. auto.
  - intros H. apply set_add_In in H. destruct H as [H|H]; [congruence|].
    now apply set_delete_not_In in H.
Qed.

Lemma sentinel_leaves_with_a_registration_witness :
  In "type/id" (syntaxes (snd (OloIdSyntax.registerSyntaxes
                                 ([SynString "UNDEFINED"] ++ [SynArray ["type"; "id"]])
                                 (OloIdSyntax.new None None fresh)))) /\
  ~ In ID_TYPE_UNDEFINED
       (syntaxes (snd (OloIdSyntax.registerSyntaxes
                         ([SynString "UNDEFINED"] ++ [SynArray ["type"; "id"]])
                         (OloIdSyntax.new None None fresh)))).
Proof.
  apply (sentinel_leaves_with_a_registration
           [SynString "UNDEFINED"] (SynArray ["type"; "id"]) (OloIdSyntax.new None None fresh));
    discriminate.
Defined.

(** ** The repository's own tests, replayed on the embedding *)

Module Tests.

(** olo-id-syntax.spec.ts; every test starts from the fresh registry. *)

Example syntax_default :
  let st := OloIdSyntax.new None None fresh in
  OloIdSyntax.getSeparator st = Some ID_TYPE_SEPARATOR /\
  fst (OloIdSyntax.getSyntaxes None false st) = [["UNDEFINED"]].
Proof. split; reflexivity. Qed.

Example syntax_custom_separator :
  let st := OloIdSyntax.new (Some []) (Some "-") fresh in
  OloIdSyntax.getSeparator st = Some "-" /\
  fst (OloIdSyntax.getSyntaxes None false st) = [].
Proof. split; reflexivity. Qed.

Example syntax_find :
  fst (OloIdSyntax.getSyntaxes (Some (SynString "type1/type2")) false three)
  = [["type1"; "type2"]] /\
  fst (OloIdSyntax.getSyntaxes (Some (SynArray ["type3"; "type4"])) false three)
  = [["type3"; "type4"]] /\
  fst (OloIdSyntax.getSyntaxes
         (Some (SynUri [("type1", VStr "value1"); ("type3", VStr "value3")])) false three)
  = [["type1"; "type3"]].
Proof. repeat split. Qed.

Example syntax_register_when_asked :
  let st := OloIdSyntax.new (Some [SynString "type1/type2"]) None fresh in
  let asked := OloIdSyntax.getSyntaxes (Some (SynString "type3/type4")) true st in
  let not_asked := OloIdSyntax.getSyntaxes (Some (SynString "type3/type4")) false st in
  fst asked = [["type3"; "type4"]] /\
  fst (OloIdSyntax.getSyntaxes None false (snd asked))
  = [["type1"; "type2"]; ["type3"; "type4"]] /\
  fst not_asked = [["type3"; "type4"]] /\
  fst (OloIdSyntax.getSyntaxes None false (snd not_asked)) = [["type1"; "type2"]].
Proof. repeat split. Qed.

Example syntax_empty_and_duplicate :
  fst (OloIdSyntax.getSyntaxes None false (OloIdSyntax.new (Some [SynString ""]) None fresh))
  = [] /\
  fst (OloIdSyntax.getSyntaxes None false
         (OloIdSyntax.new (Some [SynString "type1/type2"; SynString "type1/type2"]) None fresh))
  = [["type1"; "type2"]].
Proof. split; reflexivity. Qed.

(** olo-id.spec.ts *)

Example id_from_string :
  fst (OloId.new (OloId.SrcString "value1/value2") (with_syntax ["type1"; "type2"]) fresh)
  = Some id1 /\
  OloId.toString id1 None = "value1/value2" /\
  OloId.toSyntaxString id1 None = "type1/type2" /\
  OloId.toString id1 (Some "-") = "value1-value2" /\
  OloId.toSyntaxString id1 (Some "-") = "type1-type2".
Proof. repeat split. Qed.

Example id_from_uri :
  fst (OloId.new (OloId.SrcUri [("type1", VStr "value1"); ("type2", VStr "value2")])
                 no_options fresh)
  = Some id1.
Proof. reflexivity. Qed.

Example id_undefined_value :
  option_map (fun id => (OloId.toString id None, OloId.toJSON id))
             (fst (OloId.new (OloId.SrcUri [("type1", VStr "value1"); ("type2", VUndef)])
                             no_options fresh))
  = Some ("value1/UNDEFINED", [("type1", VStr "value1"); ("type2", VStr "UNDEFINED")]).
Proof. reflexivity. Qed.

Example id_empty_string :
  option_map (fun id => (OloId.toString id None, OloId.toJSON id))
             (fst (OloId.new (OloId.SrcString "") (with_syntax ["type1"]) fresh))
  = Some ("UNDEFINED", [("type1", VStr "UNDEFINED")]).
Proof. reflexivity. Qed.

Example id_isSame :
  let id3 := mkOloId (Some "/") ["type1"; "type2"]
                     [("type1", VStr "value2"); ("type2", VStr "value2")] in
  OloId.isSame id1 (CId id1) None = true /\
  OloId.isSame id1 (CId id3) None = false /\
  OloId.isSame id1 (CString "value1/value2") (Some (SynArray ["type1"; "type2"])) = true /\
  OloId.isSame id1 (CString "value2/value2") (Some (SynArray ["type1"; "type2"])) = false /\
  OloId.isSame id1 (CString "value2/value1") (Some (SynArray ["type2"; "type1"])) = true /\
  OloId.isSame id1 (CString "value1/undefined") (Some (SynArray ["type1"; "type2"])) = false.
Proof. repeat split. Qed.

(** olo-id-set.spec.ts *)

Example set_from_set :
  option_map (fun s => (OloIdSet.toString s, OloIdSet.toJSON s))
             (fst (OloIdSet.new (OloIdSet.SrcSet idSet1) no_options fresh))
  = Some ("value1/value2", [("type1", VStr "value1"); ("type2", VStr "value2")]).
Proof. reflexivity. Qed.

Example set_isSame :
  let idSet4 := mkOloIdSet [("type1/type2",
                             mkOloId (Some "/") ["type1"; "type2"]
                                     [("type1", VStr "value2"); ("type2", VStr "value1")])] in
  OloIdSet.isSame idSet1 (CSet idSet1) None = true /\
  OloIdSet.isSame idSet1 (CSet idSet4) None = false /\
  OloIdSet.isSame idSet1 (CString "value2/value1") (Some (SynArray ["type2"; "type1"])) = true.
Proof. repeat split. Qed.

Example set_of_three_names :
  option_map (fun s => (OloIdSet.toString s, OloIdSet.toJSON s))
             (fst (OloIdSet.new
                     (OloIdSet.SrcUri [("type1", VStr "value1"); ("type2", VStr "value2");
                                       ("type3", VStr "value3")])
                     (mkOptions None true None) fresh))
  = Some ("value1/value2/value3",
          [("type1", VStr "value1"); ("type2", VStr "value2"); ("type3", VStr "value3")]).
Proof. reflexivity. Qed.

End Tests.
